(** * Verification of the TCG event-log checker (package tcglog)

    A shallow embedding of the log checker: the placement policy
    [isExpectedEventTypeForIndex], the structural validator [checkEventData],
    the separator-error detector [isSeparatorEventError], the resolver
    [determineMeasuredBytes], the digest cross-check [checkEventDigests] and
    the driver [checkLog], followed by the properties proved about them. *)

From Stdlib.Strings Require Import Byte.
From Stdlib Require Import DecimalString.
From stdpp Require Import base decidable option list numbers strings countable gmap fin_maps.

Local Open Scope string_scope.
Local Open Scope list_scope.
Local Open Scope N_scope.

(** ** Data model *)

(** A Go [[]byte]: [None] is the nil slice, [Some l] a slice with contents
    [l].  The code tests slices against nil, so the difference between nil
    and an empty slice is kept. *)
Abbreviation slice := (option (list byte)).

Definition slice_bytes (s : slice) : list byte := default [] s.

#[global] Instance byte_eq_dec : EqDecision byte := Byte.byte_eq_dec.

(** [bytes.Compare(a, b) == 0]: nil and the empty slice compare equal. *)
Definition bytes_equal (a b : slice) : bool :=
  bool_decide (slice_bytes a = slice_bytes b).

(** Modelled from the spec: the EventType constants (declared elsewhere in the package).
    Go compiles the [switch] statements over them only when they are pairwise
    distinct, which the constructors are; [EventTypeOther] stands for every
    numeric event type that has no named constant used by the checker. *)
Inductive EventType :=
| EventTypePostCode
| EventTypeNoAction
| EventTypeSeparator
| EventTypeAction
| EventTypeEventTag
| EventTypeSCRTMContents
| EventTypeSCRTMVersion
| EventTypeCPUMicrocode
| EventTypePlatformConfigFlags
| EventTypeTableOfDevices
| EventTypeCompactHash
| EventTypeIPL
| EventTypeIPLPartitionData
| EventTypeNonhostCode
| EventTypeNonhostConfig
| EventTypeNonhostInfo
| EventTypeOmitBootDeviceEvents
| EventTypeEFIVariableDriverConfig
| EventTypeEFIVariableBoot
| EventTypeEFIBootServicesApplication
| EventTypeEFIBootServicesDriver
| EventTypeEFIRuntimeServicesDriver
| EventTypeEFIGPTEvent
| EventTypeEFIAction
| EventTypeEFIPlatformFirmwareBlob
| EventTypeEFIHandoffTables
| EventTypeEFIHCRTMEvent
| EventTypeEFIVariableAuthority
| EventTypeEFIVariableBoot2
| EventTypeOther (code : N).

#[global] Instance EventType_eq_dec : EqDecision EventType.
Proof. solve_decision. Defined.

(** [PCRIndex] is an unsigned 32-bit integer. *)
Definition PCRIndex := N.

(** Modelled from the spec: [Spec] is an ordered enumeration of profile
    versions (an unsigned integer in Go); the checker only compares a version
    against the constant [SpecPCClient], which is a field of [Externals]
    below. *)
Definition Spec := N.

(** Modelled from the spec: the AlgorithmId constants (declared elsewhere
    in the package).  [AlgorithmOther] stands for a numeric identifier outside the
    closed set of four hash algorithms. *)
Inductive AlgorithmId :=
| AlgorithmSha1
| AlgorithmSha256
| AlgorithmSha384
| AlgorithmSha512
| AlgorithmOther (id : N).

#[global] Instance AlgorithmId_eq_dec : EqDecision AlgorithmId.
Proof. solve_decision. Defined.

Definition AlgorithmId_code (a : AlgorithmId) : nat + N :=
  match a with
  | AlgorithmSha1 => inl 0%nat
  | AlgorithmSha256 => inl 1%nat
  | AlgorithmSha384 => inl 2%nat
  | AlgorithmSha512 => inl 3%nat
  | AlgorithmOther id => inr id
  end.

Definition AlgorithmId_of_code (c : nat + N) : AlgorithmId :=
  match c with
  | inl 0%nat => AlgorithmSha1
  | inl 1%nat => AlgorithmSha256
  | inl 2%nat => AlgorithmSha384
  | inl _ => AlgorithmSha512
  | inr id => AlgorithmOther id
  end.

#[global] Instance AlgorithmId_countable : Countable AlgorithmId.
Proof.
  apply (inj_countable' AlgorithmId_code AlgorithmId_of_code).
  by intros [].
Defined.

Definition isKnownAlgorithm (a : AlgorithmId) : bool :=
  match a with AlgorithmOther _ => false | _ => true end.

(** [Digest] is a byte slice; [DigestMap] is a Go map from algorithm to
    digest. *)
Abbreviation Digest := slice.
Abbreviation DigestMap := (gmap AlgorithmId Digest).

(** [binary.ByteOrder], with the two implementations the decoder uses. *)
Inductive ByteOrder := LittleEndian | BigEndian.

#[global] Instance ByteOrder_eq_dec : EqDecision ByteOrder.
Proof. solve_decision. Defined.

(** Modelled from the spec: the closed set of payload variants behind the
    [EventData] interface (declared elsewhere in the package).  Every
    variant carries the raw encoded bytes that its [Bytes()] method returns;
    the EFI variable record, the kernel command line and the bootloader
    command carry the decoded fields the resolver reads.  [otherEventData]
    stands for every variant the resolver's type switch does not name. *)
Inductive EventData :=
| opaqueEventData (raw : slice)
| AsciiStringEventData (raw : slice)
| EFIVariableEventData (raw : slice) (VariableName : list byte)
    (UnicodeName : string) (VariableData : slice)
| EFIGPTEventData (raw : slice)
| KernelCmdlineEventData (raw : slice) (cmdline : slice)
| GrubCmdEventData (raw : slice) (cmd : slice)
| otherEventData (raw : slice).

Definition Bytes (d : EventData) : slice :=
  match d with
  | opaqueEventData raw | AsciiStringEventData raw
  | EFIVariableEventData raw _ _ _ | EFIGPTEventData raw
  | KernelCmdlineEventData raw _ | GrubCmdEventData raw _
  | otherEventData raw => raw
  end.

Record Event := {
  PCRIndex_of : PCRIndex;
  EventType_of : EventType;
  Digests : DigestMap;
  Data : EventData
}.

Record LogCheckOptions := {
  EnableGrub : bool;
  EfiVariableBootQuirk : bool
}.

(** Go's [error] values: [io.EOF] is a distinguished value compared by
    identity; every other error is represented by its message. *)
Inductive error :=
| EOF
| errorString (msg : string).

#[global] Instance error_eq_dec : EqDecision error.
Proof. solve_decision. Defined.

(** The three kinds of report entry.  An entry refers to its event. *)
Inductive LogCheckReportEntry :=
| UnexpectedEventTypeReportEntry (event : Event)
| InvalidEventDataReportEntry (event : Event) (err : option error)
| UnexpectedDigestValueReportEntry (event : Event) (Algorithm : AlgorithmId)
    (Expected : Digest).

(** [LogCheckReport] is the ordered list of its entries. *)
Abbreviation LogCheckReport := (list LogCheckReportEntry).

(** A [Log] as the checker sees it: the header fields it reads and the
    stream of records still to be pulled. *)
Record Log := {
  Spec_of : Spec;
  byteOrder : ByteOrder;
  stream : list (option Event * option error)
}.

(** Modelled from the spec: [nextEventInternal] (the decoder is another
    part of the package).  Every pull yields an event without error, an event together with
    a recoverable decode error, no event and [io.EOF], or no event and a
    fatal error; a stream whose records are used up keeps yielding no event
    and [io.EOF]. *)
Definition nextEventInternal (log : Log) : (option Event * option error) * Log :=
  match stream log with
  | [] => ((None, Some EOF), log)
  | p :: rest =>
      (p, {| Spec_of := Spec_of log; byteOrder := byteOrder log; stream := rest |})
  end.

Record LogOptions := { LogOptions_EnableGrub : bool }.

(** What the checker imports: the four hash functions of Go's standard
    library, the byte order of the machine the checker runs on (the
    structural validator reads the separator payload through an unsafe
    pointer cast), the constant [SpecPCClient], and the decoder's
    constructor of a log over an in-memory buffer. *)
Class Externals := {
  sha1_Sum : list byte → list byte;
  sha256_Sum256 : list byte → list byte;
  sha512_Sum384 : list byte → list byte;
  sha512_Sum512 : list byte → list byte;
  nativeEndian : ByteOrder;
  SpecPCClient : Spec;
  NewLogFromByteReader : list byte → LogOptions → Log + error
}.

(** ** The Go runtime: map iteration order and panics

    Go leaves the order in which [range] enumerates a map unspecified, and
    it may differ from one [range] statement to the next.  A [Runtime] lists,
    for the [range] statements still to come, the order of preference of the
    keys; a computation either returns a value and the remaining runtime or
    panics. *)
Abbreviation Runtime := (list (list AlgorithmId)).

Inductive outcome (A : Type) :=
| Returns (a : A) (rt : Runtime)
| Panics (msg : string).
Arguments Returns {A} a rt.
Arguments Panics {A} msg.

Definition Go (A : Type) := Runtime → outcome A.

Definition ret {A} (a : A) : Go A := λ rt, Returns a rt.

Definition bind {A B} (m : Go A) (f : A → Go B) : Go B :=
  λ rt, match m rt with
        | Returns a rt' => f a rt'
        | Panics msg => Panics msg
        end.

Definition panic {A} (msg : string) : Go A := λ _, Panics msg.

Declare Scope go_scope.
Delimit Scope go_scope with go.
Notation "x <- m ;; k" := (bind m (λ x, k))
  (at level 100, m at next level, right associativity) : go_scope.
Local Open Scope go_scope.

(** The entries of [m], those with a key of [ks] first, in the order of
    [ks]; the others follow in the map's own order. *)
Fixpoint enumerate (ks : list AlgorithmId) (m : DigestMap) : list (AlgorithmId * Digest) :=
  match ks with
  | [] => map_to_list m
  | k :: ks' =>
      match m !! k with
      | Some d => (k, d) :: enumerate ks' (delete k m)
      | None => enumerate ks' m
      end
  end.

(** [for alg, digest := range m]: the entries in the order the runtime
    picks for this statement. *)
Definition rangeDigests (m : DigestMap) : Go (list (AlgorithmId * Digest)) :=
  λ rt, Returns (enumerate (hd [] rt) m) (tl rt).

(** ** Byte order *)

Definition byte_of_N (n : N) : byte := default x00 (Byte.of_N (n mod 256)).

(** [order.PutUint32(b, v)] on a 4-byte buffer. *)
Definition PutUint32 (order : ByteOrder) (v : N) : list byte :=
  let b k := byte_of_N (v / 2 ^ (8 * k)) in
  match order with
  | LittleEndian => [b 0; b 1; b 2; b 3]
  | BigEndian => [b 3; b 2; b 1; b 0]
  end.

(** The 32-bit word at the start of [b] in byte order [order]. *)
Definition Uint32 (order : ByteOrder) (b : list byte) : N :=
  let n k := Byte.to_N (nth k b x00) in
  match order with
  | LittleEndian => n 0%nat + 2 ^ 8 * n 1%nat + 2 ^ 16 * n 2%nat + 2 ^ 24 * n 3%nat
  | BigEndian => n 3%nat + 2 ^ 8 * n 2%nat + 2 ^ 16 * n 1%nat + 2 ^ 24 * n 0%nat
  end.

Definition MaxUint32 : N := 4294967295.

Definition separatorEventErrorValue : N := 1.
Definition separatorEventNormalValues : list N := [0; MaxUint32].

(** Modelled from the spec: the process-wide table [zeroDigests] (declared
    elsewhere in the package): for each of the four algorithms the all-zero digest of the
    algorithm's length; indexing the table with another identifier yields
    nil. *)
Definition digestSize (alg : AlgorithmId) : option nat :=
  match alg with
  | AlgorithmSha1 => Some 20%nat
  | AlgorithmSha256 => Some 32%nat
  | AlgorithmSha384 => Some 48%nat
  | AlgorithmSha512 => Some 64%nat
  | AlgorithmOther _ => None
  end.

Definition zeroDigests (alg : AlgorithmId) : slice :=
  (λ n, replicate n x00) <$> digestSize alg.

(** A string literal between double quotes, as it appears inside the
    messages of the structural validator. *)
Definition quoted (s : string) : string :=
  String (Ascii.ascii_of_nat 34) (s +:+ String (Ascii.ascii_of_nat 34) EmptyString).

(** [fmt]'s [%d] of a length. *)
Definition fmt_d (n : nat) : string := NilEmpty.string_of_uint (Nat.to_uint n).

Section Checker.
Context `{Ext : Externals}.

(** ** Placement policy *)

Definition isExpectedEventTypeForIndex (t : EventType) (i : PCRIndex) (spec : Spec) : bool :=
  if 7 <? i then true else
  match t with
  | EventTypePostCode | EventTypeSCRTMContents | EventTypeSCRTMVersion
  | EventTypeNonhostCode | EventTypeNonhostInfo | EventTypeEFIHCRTMEvent =>
      i =? 0
  | EventTypeNoAction => (i =? 0) || (i =? 6)
  | EventTypeAction | EventTypeEFIAction => (1 <=? i) && (i <=? 6)
  | EventTypeEventTag => (i <=? 4) && (spec <=? SpecPCClient)
  | EventTypeCPUMicrocode | EventTypePlatformConfigFlags | EventTypeTableOfDevices
  | EventTypeNonhostConfig | EventTypeEFIVariableBoot | EventTypeEFIHandoffTables =>
      i =? 1
  | EventTypeCompactHash => 4 <=? i
  | EventTypeIPL => (i =? 4) && (spec <=? SpecPCClient)
  | EventTypeIPLPartitionData => (i =? 5) && (spec <=? SpecPCClient)
  | EventTypeOmitBootDeviceEvents => i =? 4
  | EventTypeEFIVariableDriverConfig => (i =? 1) || (i =? 3) || (i =? 5) || (i =? 7)
  | EventTypeEFIBootServicesApplication => (i =? 2) || (i =? 4)
  | EventTypeEFIBootServicesDriver | EventTypeEFIRuntimeServicesDriver =>
      (i =? 0) || (i =? 2)
  | EventTypeEFIGPTEvent => i =? 5
  | EventTypeEFIPlatformFirmwareBlob => (i =? 0) || (i =? 2) || (i =? 4)
  | EventTypeEFIVariableAuthority => i =? 7
  | _ => true
  end.


(** ** Hashing and the separator-error detector *)

Definition hash (data : slice) (alg : AlgorithmId) : Go slice :=
  match alg with
  | AlgorithmSha1 => ret (Some (sha1_Sum (slice_bytes data)))
  | AlgorithmSha256 => ret (Some (sha256_Sum256 (slice_bytes data)))
  | AlgorithmSha384 => ret (Some (sha512_Sum384 (slice_bytes data)))
  | AlgorithmSha512 => ret (Some (sha512_Sum512 (slice_bytes data)))
  | AlgorithmOther _ => panic "Unhandled algorithm"
  end.

Definition isSeparatorEventError (event : Event) (order : ByteOrder) : Go bool :=
  if decide (EventType_of event ≠ EventTypeSeparator) then panic "Invalid event type"
  else
    let errorValue := Some (PutUint32 order separatorEventErrorValue) in
    entries <- rangeDigests (Digests event) ;;
    match entries with
    | (alg, digest) :: _ =>
        h <- hash errorValue alg ;;
        if bytes_equal digest h then ret true else ret false
    | [] => ret false
    end.

(** ** Structural validator *)

Definition checkEventData (event : Event) (order : ByteOrder) : Go (option error) :=
  match EventType_of event with
  | EventTypeSeparator =>
      isError <- isSeparatorEventError event order ;;
      if isError then ret None
      else
        let s := length (slice_bytes (Bytes (Data event))) in
        if decide (s ≠ 4%nat) then
          ret (Some (errorString ("unexpected event data size of " +:+ fmt_d s)))
        else if existsb (λ v, v =? Uint32 nativeEndian (slice_bytes (Bytes (Data event))))
                  separatorEventNormalValues
        then ret None
        else ret (Some (errorString "unexpected event data contents"))
  | EventTypeCompactHash =>
      let s := length (slice_bytes (Bytes (Data event))) in
      if decide (s = 4%nat) then ret None
      else ret (Some (errorString ("unexpected event data size of " +:+ fmt_d s)))
  | EventTypeOmitBootDeviceEvents =>
      if decide (slice_bytes (Bytes (Data event)) = String.list_byte_of_string "BOOT ATTEMPTS OMITTED")
      then ret None
      else ret (Some (errorString
        ("unexpected event data contents - expected " +:+ quoted "BOOT ATTEMPTS OMITTED")))
  | EventTypeEFIHCRTMEvent =>
      if decide (slice_bytes (Bytes (Data event)) = String.list_byte_of_string "HCRTM")
      then ret None
      else ret (Some (errorString
        ("unexpected event data contents - expected " +:+ quoted "HCRTM")))
  | _ => ret None
  end.

(** ** Digest cross-check *)

Definition isExpectedDigestValue (digest : Digest) (t : EventType) (alg : AlgorithmId)
    (measuredBytes : slice) : Go (bool * slice) :=
  expected <-
    (if decide (t = EventTypeNoAction) then ret (zeroDigests alg)
     else match measuredBytes with
          | Some _ => hash measuredBytes alg
          | None => ret None
          end) ;;
  match expected with
  | None => ret (true, None)
  | Some _ => ret (bytes_equal digest expected, expected)
  end.

Definition determineMeasuredBytes (event : Event) (order : ByteOrder)
    (options : LogCheckOptions) : Go slice :=
  out <-
    match Data event with
    | opaqueEventData _ =>
        match EventType_of event with
        | EventTypeEventTag | EventTypeSCRTMVersion | EventTypePlatformConfigFlags
        | EventTypeTableOfDevices | EventTypeNonhostInfo | EventTypeOmitBootDeviceEvents =>
            ret (Bytes (Data event))
        | EventTypeSeparator =>
            isError <- isSeparatorEventError event order ;;
            if negb isError then ret (Bytes (Data event)) else ret None
        | _ => ret None
        end
    | AsciiStringEventData _ =>
        match EventType_of event with
        | EventTypeAction | EventTypeEFIAction => ret (Bytes (Data event))
        | _ => ret None
        end
    | EFIVariableEventData _ _ _ VariableData =>
        if bool_decide (EventType_of event = EventTypeEFIVariableBoot)
           && negb (EfiVariableBootQuirk options)
        then ret VariableData
        else ret (Bytes (Data event))
    | EFIGPTEventData _ => ret (Bytes (Data event))
    | KernelCmdlineEventData _ cmdline => ret cmdline
    | GrubCmdEventData _ cmd => ret cmd
    | otherEventData _ => ret None
    end ;;
  match out with
  | Some _ => ret out
  | None =>
      if decide (EventType_of event = EventTypeSeparator)
      then ret (Some (PutUint32 order separatorEventErrorValue))
      else ret None
  end.

(** The body of the loop of [checkEventDigests] over the enumerated
    entries. *)
Fixpoint checkEventDigests_loop (event : Event) (measuredBytes : slice)
    (entries : list (AlgorithmId * Digest)) (report : LogCheckReport) : Go LogCheckReport :=
  match entries with
  | [] => ret report
  | (alg, digest) :: rest =>
      r <- isExpectedDigestValue digest (EventType_of event) alg measuredBytes ;;
      let '(ok, expected) := r in
      checkEventDigests_loop event measuredBytes rest
        (if ok then report
         else report ++ [UnexpectedDigestValueReportEntry event alg expected])
  end.

Definition checkEventDigests (event : Event) (order : ByteOrder) (options : LogCheckOptions)
    (report : LogCheckReport) : Go LogCheckReport :=
  measuredBytes <- determineMeasuredBytes event order options ;;
  entries <- rangeDigests (Digests event) ;;
  checkEventDigests_loop event measuredBytes entries report.

(** ** Per-event checks and the driver *)

Definition checkEvent (event : Event) (dataErr : option error) (spec : Spec)
    (order : ByteOrder) (options : LogCheckOptions) (report : LogCheckReport)
    : Go LogCheckReport :=
  let report :=
    if isExpectedEventTypeForIndex (EventType_of event) (PCRIndex_of event) spec
    then report else report ++ [UnexpectedEventTypeReportEntry event] in
  let report :=
    match dataErr with
    | Some _ => report ++ [InvalidEventDataReportEntry event dataErr]
    | None => report
    end in
  err <- checkEventData event order ;;
  let report :=
    match err with
    | Some _ => report ++ [InvalidEventDataReportEntry event err]
    | None => report
    end in
  checkEventDigests event order options report.

(** The loop of [checkLog], by recursion on the records the stream still
    holds: the head of [pulls] is what [nextEventInternal] yields next, and
    the empty list yields no event and [io.EOF]. *)
Fixpoint checkLog_loop (pulls : list (option Event * option error)) (spec : Spec)
    (order : ByteOrder) (options : LogCheckOptions) (report : LogCheckReport)
    : Go (option LogCheckReport * option error) :=
  match pulls with
  | [] => ret (Some report, None)
  | (None, err) :: _ =>
      if decide (err = Some EOF) then ret (Some report, None) else ret (None, err)
  | (Some event, err) :: rest =>
      report' <- checkEvent event err spec order options report ;;
      checkLog_loop rest spec order options report'
  end.

Definition checkLog (log : Log) (options : LogCheckOptions)
    : Go (option LogCheckReport * option error) :=
  checkLog_loop (stream log) (Spec_of log) (byteOrder log) options [].


End Checker.

(** ** The placement table, as the specification words it

    For every event type with a row: the PCR indices among 0..7 at which
    the type is permitted, and whether the row holds on the older profile
    only.  Types without a row are permitted everywhere. *)
Definition placementRow (t : EventType) : option (list N * bool) :=
  match t with
  | EventTypePostCode | EventTypeSCRTMContents | EventTypeSCRTMVersion
  | EventTypeNonhostCode | EventTypeNonhostInfo | EventTypeEFIHCRTMEvent =>
      Some ([0], false)
  | EventTypeNoAction => Some ([0; 6], false)
  | EventTypeAction | EventTypeEFIAction => Some ([1; 2; 3; 4; 5; 6], false)
  | EventTypeEventTag => Some ([0; 1; 2; 3; 4], true)
  | EventTypeCPUMicrocode | EventTypePlatformConfigFlags | EventTypeTableOfDevices
  | EventTypeNonhostConfig | EventTypeEFIVariableBoot | EventTypeEFIHandoffTables =>
      Some ([1], false)
  | EventTypeCompactHash => Some ([4; 5; 6; 7], false)
  | EventTypeIPL => Some ([4], true)
  | EventTypeIPLPartitionData => Some ([5], true)
  | EventTypeOmitBootDeviceEvents => Some ([4], false)
  | EventTypeEFIVariableDriverConfig => Some ([1; 3; 5; 7], false)
  | EventTypeEFIBootServicesApplication => Some ([2; 4], false)
  | EventTypeEFIBootServicesDriver | EventTypeEFIRuntimeServicesDriver =>
      Some ([0; 2], false)
  | EventTypeEFIGPTEvent => Some ([5], false)
  | EventTypeEFIPlatformFirmwareBlob => Some ([0; 2; 4], false)
  | EventTypeEFIVariableAuthority => Some ([7], false)
  | EventTypeSeparator | EventTypeEFIVariableBoot2 | EventTypeOther _ => None
  end.

Section SpecDefinitions.
Context `{Ext : Externals}.

(** A version is on the older profile when it is at or below the PC-Client
    profile. *)
Definition olderProfile (spec : Spec) : bool := spec <=? SpecPCClient.

Definition placementTable (t : EventType) (i : PCRIndex) (spec : Spec) : bool :=
  match placementRow t with
  | None => true
  | Some (allowed, olderOnly) =>
      bool_decide (i ∈ allowed) && (if olderOnly then olderProfile spec else true)
  end.

End SpecDefinitions.


(** ** The zero-digest rule for NoAction events, as the specification words it *)

Definition allZeroDigest (n : nat) : list byte := replicate n x00.

(** The algorithm a report entry is about, for the entries of the digest
    cross-check. *)
Definition entryAlgorithm (e : LogCheckReportEntry) : option AlgorithmId :=
  match e with
  | UnexpectedDigestValueReportEntry _ alg _ => Some alg
  | _ => None
  end.

Definition entriesAbout (alg : AlgorithmId) (es : LogCheckReport) : LogCheckReport :=
  filter (λ e, entryAlgorithm e = Some alg) es.

(** What a NoAction event must contribute to the report for algorithm
    [alg]: one entry carrying the all-zero digest when the recorded digest
    is present and differs from it, nothing otherwise. *)
Definition zeroDigestEntriesAbout (event : Event) (alg : AlgorithmId) : LogCheckReport :=
  match Digests event !! alg, digestSize alg with
  | Some d, Some n =>
      if decide (slice_bytes d = allZeroDigest n) then []
      else [UnexpectedDigestValueReportEntry event alg (Some (allZeroDigest n))]
  | _, _ => []
  end.

Section SpecHash.
Context `{Ext : Externals}.

(** The digest of [data] under one of the four algorithms. *)
Definition digestOf (alg : AlgorithmId) (data : list byte) : list byte :=
  match alg with
  | AlgorithmSha1 => sha1_Sum data
  | AlgorithmSha256 => sha256_Sum256 data
  | AlgorithmSha384 => sha512_Sum384 data
  | AlgorithmSha512 => sha512_Sum512 data
  | AlgorithmOther _ => []
  end.

End SpecHash.

(** The entry of the digest mapping that a [range] statement run under
    runtime [rt] visits first. *)
Definition inspected (event : Event) (rt : Runtime) : option (AlgorithmId * Digest) :=
  head (enumerate (hd [] rt) (Digests event)).

(** Every algorithm of the event's digest mapping is one of the four. *)
Definition knownAlgorithms (event : Event) : Prop :=
  ∀ alg d, Digests event !! alg = Some d → isKnownAlgorithm alg = true.

(** ** The digest cross-check, as the specification words it *)

Definition zeroDigestOf (alg : AlgorithmId) : option (list byte) :=
  allZeroDigest <$> digestSize alg.

Section SpecDigests.
Context `{Ext : Externals}.

(** The digest expected for algorithm [alg]: the all-zero digest of the
    algorithm's length on a NoAction event, else the hash of the measured
    bytes when the resolver produced some, else none. *)
Definition expectedDigest (t : EventType) (measured : slice) (alg : AlgorithmId)
    : option (list byte) :=
  if decide (t = EventTypeNoAction) then zeroDigestOf alg
  else digestOf alg <$> measured.

End SpecDigests.

(** The entry reported for one recorded digest: none when nothing is
    expected or the digest is the expected one. *)
Definition mismatchEntry (event : Event) (expectedOf : AlgorithmId → option (list byte))
    (p : AlgorithmId * Digest) : LogCheckReport :=
  match expectedOf p.1 with
  | Some e =>
      if decide (slice_bytes p.2 = e) then []
      else [UnexpectedDigestValueReportEntry event p.1 (Some e)]
  | None => []
  end.

(** The entries reported when the digests are visited in the order of
    [entries]. *)
Definition mismatchEntries (event : Event) (expectedOf : AlgorithmId → option (list byte))
    (entries : list (AlgorithmId * Digest)) : LogCheckReport :=
  entries ≫= mismatchEntry event expectedOf.

(** The entries reported about algorithm [alg]. *)
Definition mismatchEntriesAbout (event : Event)
    (expectedOf : AlgorithmId → option (list byte)) (alg : AlgorithmId) : LogCheckReport :=
  match Digests event !! alg with
  | Some d => mismatchEntry event expectedOf (alg, d)
  | None => []
  end.

(** ** The structural rule for normal separators, as the specification words it

    The payload must be exactly 4 bytes and, read as a 32-bit word in the
    byte order the log declares, be [0x00000000] or [0xFFFFFFFF]. *)
Definition separatorPayloadError (order : ByteOrder) (payload : list byte) : option error :=
  if decide (length payload ≠ 4%nat) then
    Some (errorString ("unexpected event data size of " +:+ fmt_d (length payload)))
  else if decide (Uint32 order payload = 0 ∨ Uint32 order payload = MaxUint32) then None
  else Some (errorString "unexpected event data contents").

Definition invalidEventDataEntries (event : Event) (err : option error) : LogCheckReport :=
  match err with
  | Some _ => [InvalidEventDataReportEntry event err]
  | None => []
  end.

(** ** Outcomes *)

(** What a run yields, the remaining runtime left out: the returned value or
    the panic message. *)
Definition valueOf {A} (o : outcome A) : A + string :=
  match o with
  | Returns a _ => inl a
  | Panics msg => inr msg
  end.

(** A computation whose result is the same under every runtime. *)
Definition oblivious {A} (m : Go A) : Prop :=
  ∀ rt1 rt2, valueOf (m rt1) = valueOf (m rt2).

(** A computation that returns under every runtime. *)
Definition safe {A} (m : Go A) : Prop :=
  ∀ rt, ∃ a rt', m rt = Returns a rt'.

(** The result of a run with [f] applied to the returned value. *)
Definition mapOutcome {A B} (f : A → B) (o : outcome A) : outcome B :=
  match o with
  | Returns a rt => Returns (f a) rt
  | Panics msg => Panics msg
  end.

(** The report a run returns (empty when it panics). *)
Definition reportOf (o : outcome LogCheckReport) : LogCheckReport :=
  match o with
  | Returns r _ => r
  | Panics _ => []
  end.

Section SpecMeasured.
Context `{Ext : Externals}.

(** The digests expected when the measured bytes are [measured]. *)
Definition hashOf (measured : list byte) (alg : AlgorithmId) : option (list byte) :=
  Some (digestOf alg measured).

End SpecMeasured.

(** ** The driver, as the specification words it *)

Section SpecDriver.
Context `{Ext : Externals}.

(** The entry of the placement check. *)
Definition placementEntries (event : Event) (spec : Spec) : LogCheckReport :=
  if isExpectedEventTypeForIndex (EventType_of event) (PCRIndex_of event) spec
  then [] else [UnexpectedEventTypeReportEntry event].

(** The per-event checks on the events of a list, in order, each with the
    decode error the stream returned with it. *)
Fixpoint checkEvents (events : list (Event * option error)) (spec : Spec)
    (order : ByteOrder) (options : LogCheckOptions) (report : LogCheckReport)
    : Go LogCheckReport :=
  match events with
  | [] => ret report
  | (event, dataErr) :: rest =>
      report' <- checkEvent event dataErr spec order options report ;;
      checkEvents rest spec order options report'
  end.

End SpecDriver.

(** The pulls of a stream that yields the events of a list. *)
Definition eventPulls (events : list (Event * option error))
    : list (option Event * option error) :=
  (λ p, (Some p.1, p.2)) <$> events.

(** ** Accessors and shapes of the report *)

(** The [Event()] method of the three kinds of entry. *)
Definition entryEvent (e : LogCheckReportEntry) : Event :=
  match e with
  | UnexpectedEventTypeReportEntry event => event
  | InvalidEventDataReportEntry event _ => event
  | UnexpectedDigestValueReportEntry event _ _ => event
  end.

(** The position of a kind of entry among the entries of one event:
    placement first, then event data, then digests. *)
Definition entryRank (e : LogCheckReportEntry) : nat :=
  match e with
  | UnexpectedEventTypeReportEntry _ => 0
  | InvalidEventDataReportEntry _ _ => 1
  | UnexpectedDigestValueReportEntry _ _ _ => 2
  end.

(** The byte fields of a payload: its raw bytes and its decoded fields. *)
Definition payloadFields (d : EventData) : list slice :=
  Bytes d ::
  match d with
  | EFIVariableEventData _ _ _ VariableData => [VariableData]
  | KernelCmdlineEventData _ cmdline => [cmdline]
  | GrubCmdEventData _ cmd => [cmd]
  | _ => []
  end.

(** The event types that the newer profile does not place below PCR 8. *)
Definition legacyEventTypes : list EventType :=
  [EventTypeEventTag; EventTypeIPL; EventTypeIPLPartitionData].

(** The payload condition of the structural validator on the event types
    other than Separator. *)
Definition payloadWellFormed (event : Event) : Prop :=
  let payload := slice_bytes (Bytes (Data event)) in
  match EventType_of event with
  | EventTypeCompactHash => length payload = 4%nat
  | EventTypeOmitBootDeviceEvents =>
      payload = String.list_byte_of_string "BOOT ATTEMPTS OMITTED"
  | EventTypeEFIHCRTMEvent => payload = String.list_byte_of_string "HCRTM"
  | _ => True
  end.

(** Two runs agree up to the order of the entries of the report. *)
Definition sameEntries (o1 o2 : outcome LogCheckReport) : Prop :=
  match o1, o2 with
  | Returns r1 _, Returns r2 _ => r1 ≡ₚ r2
  | Panics m1, Panics m2 => m1 = m2
  | _, _ => False
  end.

(** The events a run of the driver checks: those the stream yields before
    its first pull without event. *)
Fixpoint pulledEvents (pulls : list (option Event * option error)) : list Event :=
  match pulls with
  | (Some event, _) :: rest => event :: pulledEvents rest
  | _ => []
  end.

(** ** The BootOrder stringer of the dump tool (package main, details.go) *)

(** [order.Uint16(b)]: the 16-bit word at the start of [b]. *)
Definition Uint16 (order : ByteOrder) (b : list byte) : N :=
  let n k := Byte.to_N (nth k b x00) in
  match order with
  | LittleEndian => n 0%nat + 2 ^ 8 * n 1%nat
  | BigEndian => n 1%nat + 2 ^ 8 * n 0%nat
  end.

Definition hexDigits : list Ascii.ascii := String.list_ascii_of_string "0123456789abcdef".

Definition hexDigit (n : N) : Ascii.ascii := nth (N.to_nat n) hexDigits (Ascii.ascii_of_nat 48).

(** [fmt]'s [%04x] of a 16-bit value: four lower-case hexadecimal digits. *)
Definition fmt_04x (v : N) : string :=
  String.string_of_list_ascii
    [hexDigit (v / 4096 mod 16); hexDigit (v / 256 mod 16);
     hexDigit (v / 16 mod 16); hexDigit (v mod 16)].

(** [strings.Join(elems, sep)]. *)
Fixpoint Join (elems : list string) (sep : string) : string :=
  match elems with
  | [] => EmptyString
  | [e] => e
  | e :: rest => e +:+ sep +:+ Join rest sep
  end.

(** The loop of [bootOrderVariableStringer.String]: [None] is the panic of
    [Uint16] on a slice shorter than 2 bytes. *)
Fixpoint bootOrder_loop (data : list byte) (order : list string) : option (list string) :=
  match data with
  | [] => Some order
  | [_] => None
  | a :: b :: rest =>
      bootOrder_loop rest (order ++ [fmt_04x (Uint16 LittleEndian [a; b])])
  end.

Definition bootOrderVariableStringer_String (data : list byte) : option string :=
  if decide (length data `mod` 2 ≠ 0)%nat then
    Some ("Invalid BootOrder payload length (" +:+ fmt_d (length data) +:+ " bytes)")
  else
    match bootOrder_loop data [] with
    | Some order => Some ("BootOrder: " +:+ Join order ",")
    | None => None
    end.

(** The boot numbers of a payload of even length, two bytes each. *)
Fixpoint bootNumbers (data : list byte) : list N :=
  match data with
  | a :: b :: rest => Uint16 LittleEndian [a; b] :: bootNumbers rest
  | _ => []
  end.

(** The value of a hexadecimal digit. *)
Definition unhexDigit (c : Ascii.ascii) : N :=
  default 0 ((λ p, N.of_nat p.1) <$> list_find (λ x, x = c) hexDigits).

Definition chars (s : string) : list Ascii.ascii := String.list_ascii_of_string s.

(** ** The signature-database stringer of the dump tool *)

(** [efi.GUID], an array of 16 bytes. *)
Abbreviation GUID := (list byte).

#[global] Instance byte_countable : Countable byte.
Proof.
  apply (inj_countable' Byte.to_N (λ n, default x00 (Byte.of_N n))).
  intros b. by rewrite Byte.of_to_N.
Defined.

(** [efi.SignatureList], with the fields the stringer reads. *)
Record SignatureList := {
  SignatureList_Type : GUID;
  Signatures : list (list byte)
}.

(** Go's [int] is 64 bits wide; [intWrap] is the wrap-around of its
    arithmetic. *)
Definition intWrap (z : Z) : Z := ((z + 2 ^ 63) `mod` 2 ^ 64 - 2 ^ 63)%Z.

(** [len(l)] as an [int]. *)
Definition len {A} (l : list A) : Z := Z.of_nat (length l).

(** [fmt]'s default format of an [int]. *)
Definition fmt_int (z : Z) : string :=
  if (z <? 0)%Z then "-" +:+ fmt_d (Z.to_nat (- z)) else fmt_d (Z.to_nat z).

(** The [Error()] text of an error, which [%v] prints. *)
Definition Error (e : error) : string :=
  match e with
  | EOF => "EOF"
  | errorString msg => msg
  end.

(** [strings.Replace(s, "\n", "\n\t", -1)]. *)
Fixpoint replaceNewlines (s : string) : string :=
  match s with
  | EmptyString => EmptyString
  | String c rest =>
      if decide (c = Ascii.ascii_of_nat 10)
      then String c (String (Ascii.ascii_of_nat 9) (replaceNewlines rest))
      else String c (replaceNewlines rest)
  end.

(** One turn of the counting loop of [dbVariableStringer.String]. *)
Definition countSignatures (counts : gmap GUID Z) (l : SignatureList) : gmap GUID Z :=
  let counts :=
    match counts !! SignatureList_Type l with
    | Some _ => counts
    | None => <[SignatureList_Type l := 0%Z]> counts
    end in
  <[SignatureList_Type l :=
      intWrap (default 0%Z (counts !! SignatureList_Type l) + len (Signatures l))]> counts.

Section DbStringer.
(** What the stringer imports from the EFI library: the two signature types
    it counts, the parser of a signature database and the database's own
    [String()]. *)
Variables CertX509Guid CertSHA256Guid : GUID.
Variable ReadSignatureDatabase : list byte → list SignatureList + error.
Variable SignatureDatabase_String : list SignatureList → string.

(** [dbVariableStringer.String], on the text [desc] of its descriptor. *)
Definition dbVariableStringer_String (desc : string) (data : list byte) (verbose : bool)
    : string :=
  match ReadSignatureDatabase data with
  | inr err => "Invalid signature database for " +:+ desc +:+ ": " +:+ Error err
  | inl db =>
      let str := desc +:+ ":" in
      let counts := foldl countSignatures ∅ db in
      let n := default 0%Z (counts !! CertX509Guid) in
      let str := if (0 <? n)%Z then str +:+ " entries(x509)=" +:+ fmt_int n else str in
      let n := default 0%Z (counts !! CertSHA256Guid) in
      let str := if (0 <? n)%Z then str +:+ " entries(sha256)=" +:+ fmt_int n else str in
      if verbose then str +:+ replaceNewlines (SignatureDatabase_String db) else str
  end.

End DbStringer.

(** The number of signatures of type [t] in a database. *)
Definition signaturesOfType (t : GUID) (db : list SignatureList) : Z :=
  foldr Z.add 0%Z
    (len ∘ Signatures <$> filter (λ l, SignatureList_Type l = t) db).

(** The part of the summary for a count [n] behind the label [label]:
    nothing when the count is zero. *)
Definition summaryPart (label : string) (n : Z) : string :=
  if (0 <? n)%Z then label +:+ fmt_d (Z.to_nat n) else EmptyString.

(** The imports [E] on a machine of byte order [machine]. *)
Definition withNativeEndian (machine : ByteOrder) (E : Externals) : Externals := {|
  sha1_Sum := @sha1_Sum E;
  sha256_Sum256 := @sha256_Sum256 E;
  sha512_Sum384 := @sha512_Sum384 E;
  sha512_Sum512 := @sha512_Sum512 E;
  nativeEndian := machine;
  SpecPCClient := @SpecPCClient E;
  NewLogFromByteReader := @NewLogFromByteReader E
|}.

(** ** Concrete inputs

    An instantiation of the imports on which the definitions evaluate: the
    digest of a byte string is the string itself behind a one-byte tag of the
    algorithm (so no two inputs collide), the machine is little-endian, the
    PC-Client profile is version 1, and the decoder reads a buffer as an
    empty little-endian log of that version. *)
Definition tagExternals : Externals := {|
  sha1_Sum d := x01 :: d;
  sha256_Sum256 d := x02 :: d;
  sha512_Sum384 d := x03 :: d;
  sha512_Sum512 d := x04 :: d;
  nativeEndian := LittleEndian;
  SpecPCClient := 1;
  NewLogFromByteReader _ _ :=
    inl {| Spec_of := 1; byteOrder := LittleEndian; stream := [] |}
|}.

Definition defaultOptions : LogCheckOptions :=
  {| EnableGrub := false; EfiVariableBootQuirk := false |}.

(** A NoAction event whose SHA-1 and SHA-256 digests are both the single
    byte 01. *)
Definition noActionTwoBad : Event := {|
  PCRIndex_of := 0;
  EventType_of := EventTypeNoAction;
  Digests := {[ AlgorithmSha1 := Some [x01]; AlgorithmSha256 := Some [x01] ]};
  Data := opaqueEventData (Some [])
|}.

(** A NoAction event with an all-zero SHA-1 digest and a SHA-256 digest
    that is not all-zero. *)
Definition noActionOneBad : Event := {|
  PCRIndex_of := 0;
  EventType_of := EventTypeNoAction;
  Digests := {[ AlgorithmSha1 := Some (allZeroDigest 20); AlgorithmSha256 := Some [x01] ]};
  Data := opaqueEventData (Some [])
|}.

(** An EFIVariableBoot event whose recorded SHA-256 digest is the digest of
    the variable's value. *)
Definition bootVariableValue : list byte := [x01; x00].
Definition bootVariableRecord : list byte := [xaa; xbb; x01; x00].

Definition bootVariableEvent : Event := {|
  PCRIndex_of := 1;
  EventType_of := EventTypeEFIVariableBoot;
  Digests := {[ AlgorithmSha256 := Some (x02 :: bootVariableValue) ]};
  Data := EFIVariableEventData (Some bootVariableRecord) [] "BootOrder"
            (Some bootVariableValue)
|}.

(** An event that carries a kernel command line. *)
Definition kernelCmdlineText : list byte := String.list_byte_of_string "quiet".

Definition kernelCmdlineEvent : Event := {|
  PCRIndex_of := 8;
  EventType_of := EventTypeIPL;
  Digests := {[ AlgorithmSha256 := Some (x02 :: kernelCmdlineText) ]};
  Data := KernelCmdlineEventData (Some (String.list_byte_of_string "kernel_cmdline: quiet"))
            (Some kernelCmdlineText)
|}.

(** A Separator event whose SHA-1 digest is the digest of the error value
    and whose SHA-256 digest is the digest of its payload. *)
Definition separatorMixed : Event := {|
  PCRIndex_of := 7;
  EventType_of := EventTypeSeparator;
  Digests := {[ AlgorithmSha1 := Some (x01 :: PutUint32 LittleEndian 1);
                AlgorithmSha256 := Some (x02 :: PutUint32 LittleEndian 0) ]};
  Data := opaqueEventData (Some (PutUint32 LittleEndian 0))
|}.

(** A well-formed normal Separator event. *)
Definition separatorNormal : Event := {|
  PCRIndex_of := 7;
  EventType_of := EventTypeSeparator;
  Digests := {[ AlgorithmSha1 := Some (x01 :: PutUint32 LittleEndian 0);
                AlgorithmSha256 := Some (x02 :: PutUint32 LittleEndian 0) ]};
  Data := opaqueEventData (Some (PutUint32 LittleEndian 0))
|}.

(** An error Separator event with a payload of 2 bytes. *)
Definition separatorError : Event := {|
  PCRIndex_of := 7;
  EventType_of := EventTypeSeparator;
  Digests := {[ AlgorithmSha256 := Some (x02 :: PutUint32 LittleEndian 1) ]};
  Data := opaqueEventData (Some [xde; xad])
|}.

(** A Separator event without digests and with a payload of 2 bytes. *)
Definition separatorNoDigests : Event := {|
  PCRIndex_of := 7;
  EventType_of := EventTypeSeparator;
  Digests := ∅;
  Data := opaqueEventData (Some [xde; xad])
|}.

(** A log of three records, the second returned with a decode error. *)
Definition sampleLog : Log := {|
  Spec_of := 2;
  byteOrder := LittleEndian;
  stream := [ (Some separatorNormal, None);
              (Some kernelCmdlineEvent, Some (errorString "short payload"));
              (Some separatorError, None);
              (None, Some EOF) ]
|}.

(** A log whose events have one digest each. *)
Definition singleDigestLog : Log := {|
  Spec_of := 2;
  byteOrder := LittleEndian;
  stream := [ (Some separatorError, None);
              (Some kernelCmdlineEvent, None);
              (None, Some EOF) ]
|}.

(** A CompactHash event with a payload of 3 bytes. *)
Definition compactHashShort : Event := {|
  PCRIndex_of := 4;
  EventType_of := EventTypeCompactHash;
  Digests := {[ AlgorithmSha1 := Some (allZeroDigest 20) ]};
  Data := opaqueEventData (Some [x01; x02; x03])
|}.

(** A PostCode event, for which the resolver has no measured bytes, with a
    digest of an algorithm outside the four. *)
Definition postCodeUnknownAlgorithm : Event := {|
  PCRIndex_of := 0;
  EventType_of := EventTypePostCode;
  Digests := {[ AlgorithmOther 18 := Some [x01] ]};
  Data := opaqueEventData (Some [])
|}.

(** An Action event with a digest of an algorithm outside the four. *)
Definition actionUnknownAlgorithm : Event := {|
  PCRIndex_of := 5;
  EventType_of := EventTypeAction;
  Digests := {[ AlgorithmOther 18 := Some [x01] ]};
  Data := AsciiStringEventData (Some (String.list_byte_of_string "Calling INT 19h"))
|}.

Definition unknownAlgorithmLog : Log := {|
  Spec_of := 2;
  byteOrder := LittleEndian;
  stream := [ (Some separatorNormal, None);
              (Some actionUnknownAlgorithm, None);
              (None, Some EOF) ]
|}.

(** A signature database of three lists, and a parser that returns it. *)
Definition sampleX509Guid : GUID := [xa1].
Definition sampleSHA256Guid : GUID := [xc1].

Definition sampleDatabase : list SignatureList :=
  [ {| SignatureList_Type := sampleX509Guid; Signatures := [[x01]; [x02]] |};
    {| SignatureList_Type := sampleSHA256Guid; Signatures := [[x03]] |};
    {| SignatureList_Type := sampleX509Guid; Signatures := [[x04]] |} ].

Definition sampleReadSignatureDatabase (data : list byte) : list SignatureList + error :=
  inl sampleDatabase.

(** * Properties *)

Section Properties.
Context `{Ext : Externals}.

(** *** The runtime *)

Lemma enumerate_perm (ks : list AlgorithmId) (m : DigestMap) :
  enumerate ks m ≡ₚ map_to_list m.
Proof.
  revert m. induction ks as [|k ks IH]; intros m; simpl; [done|].
  destruct (m !! k) as [d|] eqn:Hk; [|done].
  rewrite IH. by apply map_to_list_delete.
Qed.

(** Every order of the entries is one the runtime can pick. *)
Lemma enumerate_complete (m : DigestMap) (l : list (AlgorithmId * Digest)) :
  l ≡ₚ map_to_list m → enumerate l.*1 m = l.
Proof.
  revert m. induction l as [|[k d] l IH]; intros m Hl; simpl.
  - symmetry. by apply Permutation_nil_l.
  - assert (m !! k = Some d) as Hk.
    { apply elem_of_map_to_list. rewrite <- Hl. left. }
    rewrite Hk. f_equal. apply IH.
    apply (Permutation_cons_inv (a := (k, d))).
    by rewrite Hl, map_to_list_delete.
Qed.

Lemma enumerate_empty (ks : list AlgorithmId) : enumerate ks (∅ : DigestMap) = [].
Proof.
  apply Permutation_nil_r. by rewrite enumerate_perm, map_to_list_empty.
Qed.

Lemma enumerate_singleton (ks : list AlgorithmId) (alg : AlgorithmId) (d : Digest) :
  enumerate ks ({[alg := d]} : DigestMap) = [(alg, d)].
Proof.
  apply Permutation_singleton_r. by rewrite enumerate_perm, map_to_list_singleton.
Qed.

Lemma elem_of_enumerate (ks : list AlgorithmId) (m : DigestMap) alg d :
  (alg, d) ∈ enumerate ks m ↔ m !! alg = Some d.
Proof. by rewrite enumerate_perm, elem_of_map_to_list. Qed.

Lemma NoDup_fst_enumerate (ks : list AlgorithmId) (m : DigestMap) :
  NoDup (enumerate ks m).*1.
Proof. rewrite enumerate_perm. apply NoDup_fst_map_to_list. Qed.

(** *** Placement *)

Lemma index_upto_7 (i : N) :
  (7 <? i) = false →
  i = 0 ∨ i = 1 ∨ i = 2 ∨ i = 3 ∨ i = 4 ∨ i = 5 ∨ i = 6 ∨ i = 7.
Proof. intros H%N.ltb_ge. lia. Qed.

(** C1: for every event type, PCR index and spec version, the placement
    check returns [true] when the index is greater than 7, and otherwise
    exactly the entry of the placement table. *)
Theorem isExpectedEventTypeForIndex_table (t : EventType) (i : PCRIndex) (spec : Spec) :
  isExpectedEventTypeForIndex t i spec =
  if bool_decide (7 < i) then true else placementTable t i spec.
Proof.
  unfold isExpectedEventTypeForIndex, placementTable, olderProfile.
  destruct (7 <? i) eqn:Hi.
  - apply N.ltb_lt in Hi. by rewrite bool_decide_eq_true_2.
  - rewrite bool_decide_eq_false_2 by (apply N.ltb_ge in Hi; lia).
    destruct (index_upto_7 i Hi) as [->|[->|[->|[->|[->|[->|[->| ->]]]]]]];
      destruct t; simpl; try reflexivity;
      by destruct (spec <=? SpecPCClient).
Qed.

(** *** Hashing and the digest cross-check *)

Lemma hash_known (data : slice) (alg : AlgorithmId) (rt : Runtime) :
  isKnownAlgorithm alg = true →
  hash data alg rt = Returns (Some (digestOf alg (slice_bytes data))) rt.
Proof. by destruct alg. Qed.

Lemma hash_unknown (data : slice) (id : N) (rt : Runtime) :
  hash data (AlgorithmOther id) rt = Panics "Unhandled algorithm".
Proof. done. Qed.

Lemma bytes_equal_true (a b : slice) :
  bytes_equal a b = true ↔ slice_bytes a = slice_bytes b.
Proof. unfold bytes_equal. apply bool_decide_eq_true. Qed.

Lemma isSeparatorEventError_inspected (event : Event) (order : ByteOrder) (rt : Runtime) :
  EventType_of event = EventTypeSeparator →
  isSeparatorEventError event order rt =
  match inspected event rt with
  | None => Returns false (tl rt)
  | Some (alg, d) =>
      if isKnownAlgorithm alg
      then Returns (bool_decide (slice_bytes d =
                      digestOf alg (PutUint32 order separatorEventErrorValue))) (tl rt)
      else Panics "Unhandled algorithm"
  end.
Proof.
  intros Ht. unfold isSeparatorEventError, inspected, bind, rangeDigests.
  rewrite decide_False by (by intros []).
  destruct (enumerate (hd [] rt) (Digests event)) as [|[alg d] l]; simpl; [done|].
  destruct alg; simpl; unfold bind, ret, bytes_equal; simpl; try done;
    by case_bool_decide.
Qed.

(** Outside Separator events the resolver neither enumerates the digest
    mapping nor hashes. *)
Lemma determineMeasuredBytes_no_range (event : Event) (order : ByteOrder)
    (options : LogCheckOptions) :
  EventType_of event ≠ EventTypeSeparator →
  ∃ mb, ∀ rt, determineMeasuredBytes event order options rt = Returns mb rt.
Proof.
  intros Ht. unfold determineMeasuredBytes.
  rewrite decide_False by done.
  destruct (Data event) as [raw|raw|raw g n v|raw|raw c|raw c|raw] eqn:HD;
    destruct (EventType_of event) eqn:HT; try done; simpl;
    unfold bind, ret;
    repeat match goal with
           | |- context [match ?x with Some _ => _ | None => _ end] => destruct x
           | |- context [if ?b then _ else _] => destruct b
           end; eauto.
Qed.

Lemma zeroDigests_zeroDigestOf (alg : AlgorithmId) : zeroDigests alg = zeroDigestOf alg.
Proof. done. Qed.

Lemma mismatchEntries_cons (event : Event) (f : AlgorithmId → option (list byte))
    (p : AlgorithmId * Digest) (l : list (AlgorithmId * Digest)) :
  mismatchEntries event f (p :: l) = mismatchEntry event f p ++ mismatchEntries event f l.
Proof. done. Qed.

(** The loop of the cross-check appends, in the order it visits the
    digests, one entry for every digest that differs from the expected one;
    it cannot panic on a NoAction event, without measured bytes, or when the
    algorithms it visits are among the four. *)
Lemma checkEventDigests_loop_expected (event : Event) (mb : slice)
    (entries : list (AlgorithmId * Digest)) (report : LogCheckReport) (rt : Runtime) :
  EventType_of event = EventTypeNoAction ∨ mb = None ∨
    Forall (λ p, isKnownAlgorithm p.1 = true) entries →
  checkEventDigests_loop event mb entries report rt =
  Returns (report ++ mismatchEntries event (expectedDigest (EventType_of event) mb) entries) rt.
Proof.
  intros Hsafe. revert report.
  induction entries as [|[alg d] l IH]; intros report.
  - simpl. unfold ret. by rewrite app_nil_r.
  - assert (isExpectedDigestValue d (EventType_of event) alg mb rt =
      Returns (match expectedDigest (EventType_of event) mb alg with
               | Some e => (bool_decide (slice_bytes d = e), Some e)
               | None => (true, None)
               end) rt) as Hexp.
    { unfold isExpectedDigestValue, expectedDigest, bind.
      destruct (decide (EventType_of event = EventTypeNoAction)) as [Ht|Ht].
      - unfold ret. rewrite zeroDigests_zeroDigestOf.
        by destruct (zeroDigestOf alg).
      - destruct mb as [bytes|]; [|done].
        destruct Hsafe as [?|[?|Hk]]; [done..|].
        apply Forall_cons in Hk as [Hk _]. by rewrite hash_known. }
    assert (EventType_of event = EventTypeNoAction ∨ mb = None ∨
      Forall (λ p, isKnownAlgorithm p.1 = true) l) as Hsafe'.
    { destruct Hsafe as [?|[?|Hk]]; auto. apply Forall_cons in Hk as [_ Hk]. auto. }
    rewrite mismatchEntries_cons. simpl. unfold bind. rewrite Hexp.
    unfold mismatchEntry at 1. simpl.
    destruct (expectedDigest (EventType_of event) mb alg) as [e|].
    + case_bool_decide; case_decide; try done; rewrite IH by done; simpl;
        by rewrite <- ?app_assoc.
    + by apply IH.
Qed.

Lemma entriesAbout_app (alg : AlgorithmId) (es1 es2 : LogCheckReport) :
  entriesAbout alg (es1 ++ es2) = entriesAbout alg es1 ++ entriesAbout alg es2.
Proof. apply filter_app. Qed.

Lemma entriesAbout_mismatchEntry (event : Event) (f : AlgorithmId → option (list byte))
    (alg a : AlgorithmId) (d : Digest) :
  entriesAbout alg (mismatchEntry event f (a, d)) =
  if decide (a = alg) then mismatchEntry event f (a, d) else [].
Proof.
  unfold entriesAbout, mismatchEntry. simpl.
  destruct (f a); [|by case_decide].
  destruct (decide (slice_bytes d = _)); [by case_decide|].
  destruct (decide (a = alg)) as [->|Hne].
  - by rewrite filter_cons_True.
  - rewrite filter_cons_False; [done|]. simpl. congruence.
Qed.

Lemma entriesAbout_mismatchEntries_absent (event : Event)
    (f : AlgorithmId → option (list byte)) (alg : AlgorithmId)
    (l : list (AlgorithmId * Digest)) :
  alg ∉ l.*1 → entriesAbout alg (mismatchEntries event f l) = [].
Proof.
  induction l as [|[a d] l IH]; [done|]. intros Hn.
  apply not_elem_of_cons in Hn as [Hne Hn]. simpl in Hne.
  rewrite mismatchEntries_cons, entriesAbout_app, IH by done.
  rewrite entriesAbout_mismatchEntry, decide_False by done. done.
Qed.

Lemma entriesAbout_mismatchEntries_present (event : Event)
    (f : AlgorithmId → option (list byte)) (alg : AlgorithmId)
    (d : Digest) (l : list (AlgorithmId * Digest)) :
  NoDup l.*1 → (alg, d) ∈ l →
  entriesAbout alg (mismatchEntries event f l) = mismatchEntry event f (alg, d).
Proof.
  induction l as [|[a x] l IH]; intros Hnd Hin; [by inversion Hin|].
  simpl in Hnd. apply NoDup_cons in Hnd as [Hna Hnd].
  rewrite mismatchEntries_cons, entriesAbout_app, entriesAbout_mismatchEntry.
  apply elem_of_cons in Hin as [[= <- <-]|Hin].
  - rewrite decide_True by done.
    rewrite entriesAbout_mismatchEntries_absent by done. apply app_nil_r.
  - rewrite decide_False, IH; [done..|].
    intros ->. apply Hna. apply list_elem_of_fmap. by exists (alg, d).
Qed.

(** Whatever the order of enumeration, the entries about an algorithm are
    the ones its own recorded digest calls for. *)
Lemma entriesAbout_mismatchEntries (event : Event) (f : AlgorithmId → option (list byte))
    (ks : list AlgorithmId) (alg : AlgorithmId) :
  entriesAbout alg (mismatchEntries event f (enumerate ks (Digests event))) =
  mismatchEntriesAbout event f alg.
Proof.
  unfold mismatchEntriesAbout.
  destruct (Digests event !! alg) as [d|] eqn:Hlk.
  - apply (entriesAbout_mismatchEntries_present _ _ _ d).
    + apply NoDup_fst_enumerate.
    + by apply elem_of_enumerate.
  - apply entriesAbout_mismatchEntries_absent.
    intros ([a d] & -> & Hin)%list_elem_of_fmap. simpl in Hlk.
    apply elem_of_enumerate in Hin. congruence.
Qed.

Lemma mismatchEntries_kind (event : Event) (f : AlgorithmId → option (list byte))
    (l : list (AlgorithmId * Digest)) e :
  e ∈ mismatchEntries event f l →
  ∃ alg d x, (alg, d) ∈ l ∧ f alg = Some x ∧ slice_bytes d ≠ x ∧
    e = UnexpectedDigestValueReportEntry event alg (Some x).
Proof.
  unfold mismatchEntries. intros ([a d] & He & Hin)%list_elem_of_bind.
  unfold mismatchEntry in He. simpl in He.
  destruct (f a) as [x|] eqn:Hx; [|by inversion He].
  case_decide; [by inversion He|].
  apply list_elem_of_singleton in He. eauto 10.
Qed.

Lemma zeroDigestEntriesAbout_mismatch (event : Event) (alg : AlgorithmId) :
  mismatchEntriesAbout event zeroDigestOf alg = zeroDigestEntriesAbout event alg.
Proof.
  unfold mismatchEntriesAbout, zeroDigestEntriesAbout, mismatchEntry, zeroDigestOf.
  destruct (Digests event !! alg); [|done]. simpl.
  by destruct (digestSize alg).
Qed.

(** C2: for a NoAction event the digest cross-check returns, whatever the
    payload, the options and the order of enumeration, the report extended
    by entries that all carry the all-zero digest of their algorithm's
    length as the expected value; the entries about an algorithm are exactly
    one when the recorded digest of that algorithm differs from the all-zero
    digest, and none otherwise. *)
Theorem checkEventDigests_NoAction (event : Event) (order : ByteOrder)
    (options : LogCheckOptions) (report : LogCheckReport) (rt : Runtime) :
  EventType_of event = EventTypeNoAction →
  ∃ es,
    checkEventDigests event order options report rt = Returns (report ++ es) (tl rt) ∧
    (∀ e, e ∈ es → ∃ alg n, digestSize alg = Some n ∧
        e = UnexpectedDigestValueReportEntry event alg (Some (allZeroDigest n))) ∧
    (∀ alg, entriesAbout alg es = zeroDigestEntriesAbout event alg).
Proof.
  intros Ht.
  destruct (determineMeasuredBytes_no_range event order options) as [mb Hmb];
    [by rewrite Ht|].
  exists (mismatchEntries event zeroDigestOf (enumerate (hd [] rt) (Digests event))).
  split; [|split].
  - unfold checkEventDigests, bind. rewrite Hmb. unfold rangeDigests.
    rewrite checkEventDigests_loop_expected by auto.
    by rewrite Ht.
  - intros e (alg & d & x & _ & Hx & _ & ->)%mismatchEntries_kind.
    unfold zeroDigestOf in Hx. destruct (digestSize alg) as [n|] eqn:Hn; [|done].
    injection Hx as <-. eauto.
  - intros alg. by rewrite entriesAbout_mismatchEntries, zeroDigestEntriesAbout_mismatch.
Qed.

(** *** Separators *)

Lemma Uint32_normal_any_order (o1 o2 : ByteOrder) (payload : list byte) :
  (Uint32 o1 payload = 0 ∨ Uint32 o1 payload = MaxUint32) →
  (Uint32 o2 payload = 0 ∨ Uint32 o2 payload = MaxUint32).
Proof.
  unfold Uint32, MaxUint32.
  pose proof (Byte.to_N_bounded (nth 0 payload x00)).
  pose proof (Byte.to_N_bounded (nth 1 payload x00)).
  pose proof (Byte.to_N_bounded (nth 2 payload x00)).
  pose proof (Byte.to_N_bounded (nth 3 payload x00)).
  change (2 ^ 8) with 256. change (2 ^ 16) with 65536. change (2 ^ 24) with 16777216.
  destruct o1, o2; lia.
Qed.

Lemma separatorEventNormalValues_check (order : ByteOrder) (payload : list byte) :
  existsb (λ v, v =? Uint32 nativeEndian payload) separatorEventNormalValues =
  bool_decide (Uint32 order payload = 0 ∨ Uint32 order payload = MaxUint32).
Proof.
  unfold separatorEventNormalValues. cbn [existsb]. rewrite orb_false_r.
  case_bool_decide as Hd.
  - apply (Uint32_normal_any_order order nativeEndian) in Hd.
    apply orb_true_iff. rewrite !N.eqb_eq. destruct Hd as [Hd|Hd]; rewrite Hd; auto.
  - apply orb_false_iff. rewrite !N.eqb_neq. split; intros Heq; apply Hd;
      apply (Uint32_normal_any_order nativeEndian order); auto.
Qed.

Lemma checkEventData_separator (event : Event) (order : ByteOrder) (rt : Runtime) :
  EventType_of event = EventTypeSeparator →
  checkEventData event order rt =
  match isSeparatorEventError event order rt with
  | Returns true rt' => Returns None rt'
  | Returns false rt' =>
      Returns (separatorPayloadError order (slice_bytes (Bytes (Data event)))) rt'
  | Panics msg => Panics msg
  end.
Proof.
  intros Ht. unfold checkEventData, bind. rewrite Ht.
  destruct (isSeparatorEventError event order rt) as [[] rt'|]; try done.
  unfold separatorPayloadError.
  case_decide; [done|].
  rewrite (separatorEventNormalValues_check order).
  by case_bool_decide; case_decide.
Qed.

(** C3: a Separator event is classified as an error separator exactly when
    the one entry of its digest mapping that the detector inspects records,
    for one of the four algorithms, the hash of the value 1 encoded in the
    declared byte order; when it is so classified the structural validator
    reports nothing whatever the payload, and the measured bytes of its
    opaque payload become the 4-byte encoding of 1 in the declared order. *)
Theorem isSeparatorEventError_classification (event : Event) (order : ByteOrder)
    (rt : Runtime) :
  EventType_of event = EventTypeSeparator →
  (∀ rt', isSeparatorEventError event order rt = Returns true rt' ↔
     rt' = tl rt ∧
     ∃ alg d, inspected event rt = Some (alg, d) ∧ isKnownAlgorithm alg = true ∧
       slice_bytes d = digestOf alg (PutUint32 order separatorEventErrorValue)) ∧
  (∀ rt', isSeparatorEventError event order rt = Returns true rt' →
     checkEventData event order rt = Returns None rt' ∧
     ∀ raw options, Data event = opaqueEventData raw →
       determineMeasuredBytes event order options rt =
       Returns (Some (PutUint32 order separatorEventErrorValue)) rt').
Proof.
  intros Ht. split.
  - intros rt'. rewrite isSeparatorEventError_inspected by done.
    destruct (inspected event rt) as [[alg d]|].
    + destruct (isKnownAlgorithm alg) eqn:Hk.
      * case_bool_decide; split.
        -- intros [= <-]. eauto 10.
        -- by intros [-> _].
        -- done.
        -- intros [_ (alg' & d' & [= <- <-] & _ & ?)]. done.
      * split; [done|]. intros [_ (alg' & d' & [= <- <-] & ? & _)]. congruence.
    + split; [done|]. by intros [_ (? & ? & ? & _)].
  - intros rt' Herr. split.
    + by rewrite checkEventData_separator, Herr.
    + intros raw options HD. unfold determineMeasuredBytes, bind.
      by rewrite HD, Ht, Herr.
Qed.

(** The structural validator on a Separator event that the detector does
    not classify as an error separator. *)
Lemma checkEventData_not_error (event : Event) (order : ByteOrder)
    (rt rt' : Runtime) :
  EventType_of event = EventTypeSeparator →
  isSeparatorEventError event order rt = Returns false rt' →
  checkEventData event order rt =
  Returns (separatorPayloadError order (slice_bytes (Bytes (Data event)))) rt'.
Proof. intros Ht Hn. by rewrite checkEventData_separator, Hn. Qed.

(** *** The report is only ever extended *)

Lemma checkEventDigests_loop_acc (event : Event) (mb : slice)
    (l : list (AlgorithmId * Digest)) (report : LogCheckReport) (rt : Runtime) :
  checkEventDigests_loop event mb l report rt =
  mapOutcome (app report) (checkEventDigests_loop event mb l [] rt).
Proof.
  revert report rt. induction l as [|[alg d] l IH]; intros report rt; simpl.
  - unfold ret. simpl. by rewrite app_nil_r.
  - unfold bind.
    destruct (isExpectedDigestValue d (EventType_of event) alg mb rt) as [[ok e] rt1|];
      [|done].
    destruct ok; [apply IH|].
    rewrite IH. rewrite (IH [_]).
    destruct (checkEventDigests_loop event mb l [] rt1); simpl; [|done].
    by rewrite <- app_assoc.
Qed.

Lemma checkEventDigests_acc (event : Event) (order : ByteOrder) (options : LogCheckOptions)
    (report : LogCheckReport) (rt : Runtime) :
  checkEventDigests event order options report rt =
  mapOutcome (app report) (checkEventDigests event order options [] rt).
Proof.
  unfold checkEventDigests, bind.
  destruct (determineMeasuredBytes event order options rt) as [mb rt1|]; [|done].
  unfold rangeDigests. apply checkEventDigests_loop_acc.
Qed.

Lemma checkEvent_acc (event : Event) (dataErr : option error) (spec : Spec)
    (order : ByteOrder) (options : LogCheckOptions) (report : LogCheckReport)
    (rt : Runtime) :
  checkEvent event dataErr spec order options report rt =
  mapOutcome (app report) (checkEvent event dataErr spec order options [] rt).
Proof.
  unfold checkEvent, bind.
  destruct (checkEventData event order rt) as [err rt1|]; [|done].
  rewrite checkEventDigests_acc. symmetry. rewrite checkEventDigests_acc.
  destruct (checkEventDigests event order options [] rt1) as [es rt2|]; [|done].
  simpl. f_equal.
  destruct (isExpectedEventTypeForIndex _ _ _), dataErr, err; simpl;
    by rewrite <- ?app_assoc.
Qed.

(** The cross-check appends nothing when every recorded digest is the hash
    of the measured bytes. *)
Lemma checkEventDigests_loop_match (event : Event) (measured : list byte)
    (l : list (AlgorithmId * Digest)) (report : LogCheckReport) (rt : Runtime) :
  EventType_of event ≠ EventTypeNoAction →
  Forall (λ p, isKnownAlgorithm p.1 = true ∧ slice_bytes p.2 = digestOf p.1 measured) l →
  checkEventDigests_loop event (Some measured) l report rt = Returns report rt.
Proof.
  intros Ht Hl. induction Hl as [|[alg d] l [Hk Hd] _ IH]; [done|].
  simpl in *. unfold bind, isExpectedDigestValue.
  rewrite decide_False by done. unfold bind.
  rewrite hash_known by done. unfold ret, bytes_equal. simpl.
  by rewrite bool_decide_eq_true_2.
Qed.

Lemma isExpectedEventTypeForIndex_Separator (i : PCRIndex) (spec : Spec) :
  isExpectedEventTypeForIndex EventTypeSeparator i spec = true.
Proof. unfold isExpectedEventTypeForIndex. by destruct (7 <? i). Qed.

Lemma Uint32_PutUint32_normal (order : ByteOrder) (v : N) :
  v = 0 ∨ v = MaxUint32 →
  length (PutUint32 order v) = 4%nat ∧
  (Uint32 order (PutUint32 order v) = 0 ∨ Uint32 order (PutUint32 order v) = MaxUint32).
Proof. intros [-> | ->]; destruct order; split; try done; vm_compute; auto. Qed.

(** C4: for a Separator event that the detector does not classify as an
    error separator, the structural validator returns the error naming the
    size when the payload is not 4 bytes long, the error about the contents
    when the 32-bit word of the payload in the declared byte order is neither
    0x00000000 nor 0xFFFFFFFF, and no error for these two values; that
    result, as an InvalidEventData entry when it is an error, is what the
    per-event check hands to the digest cross-check, the placement of a
    Separator being valid at every PCR index; and a Separator whose opaque
    payload is one of the two normal values and whose digests are all the
    hash of the payload leaves the report as it was. *)
Theorem checkEventData_Separator_normal (event : Event) (order : ByteOrder)
    (rt rt' : Runtime) :
  EventType_of event = EventTypeSeparator →
  isSeparatorEventError event order rt = Returns false rt' →
  checkEventData event order rt =
    Returns (separatorPayloadError order (slice_bytes (Bytes (Data event)))) rt' ∧
  (∀ spec options report,
     checkEvent event None spec order options report rt =
     checkEventDigests event order options
       (report ++ invalidEventDataEntries event
                    (separatorPayloadError order (slice_bytes (Bytes (Data event))))) rt') ∧
  (∀ spec options report payload,
     Data event = opaqueEventData (Some payload) →
     payload = PutUint32 order 0 ∨ payload = PutUint32 order MaxUint32 →
     (∀ alg d, Digests event !! alg = Some d →
        isKnownAlgorithm alg = true ∧ slice_bytes d = digestOf alg payload ∧
        digestOf alg payload ≠ digestOf alg (PutUint32 order separatorEventErrorValue)) →
     ∃ rt'', checkEvent event None spec order options report rt = Returns report rt'').
Proof.
  intros Ht Hn.
  assert (checkEventData event order rt =
    Returns (separatorPayloadError order (slice_bytes (Bytes (Data event)))) rt') as Hdata
    by (by rewrite checkEventData_separator, Hn).
  assert (∀ spec options report,
     checkEvent event None spec order options report rt =
     checkEventDigests event order options
       (report ++ invalidEventDataEntries event
                    (separatorPayloadError order (slice_bytes (Bytes (Data event))))) rt')
    as Hevent.
  { intros spec options report. unfold checkEvent, bind.
    rewrite Hdata, Ht, isExpectedEventTypeForIndex_Separator.
    destruct (separatorPayloadError _ _); simpl; by rewrite ?app_nil_r. }
  split; [done|]. split; [done|].
  intros spec options report payload HD Hpayload Hdigests.
  rewrite Hevent, HD. simpl.
  assert (separatorPayloadError order payload = None) as ->.
  { unfold separatorPayloadError.
    assert (length payload = 4%nat ∧
            (Uint32 order payload = 0 ∨ Uint32 order payload = MaxUint32)) as [Hlen Hw].
    { destruct Hpayload as [-> | ->]; apply Uint32_PutUint32_normal; auto. }
    rewrite decide_False by (by intros ?). by rewrite decide_True. }
  simpl. rewrite app_nil_r.
  assert (∀ rt0, isSeparatorEventError event order rt0 = Returns false (tl rt0)) as Hnever.
  { intros rt0. rewrite isSeparatorEventError_inspected by done.
    destruct (inspected event rt0) as [[alg d]|] eqn:Hi; [|done].
    assert (Digests event !! alg = Some d) as Hlk.
    { apply (elem_of_enumerate (hd [] rt0)). unfold inspected in Hi.
      by apply head_Some_elem_of. }
    destruct (Hdigests _ _ Hlk) as (-> & Hd & Hne).
    rewrite bool_decide_eq_false_2; [done|]. congruence. }
  exists (tl (tl rt')).
  unfold checkEventDigests, determineMeasuredBytes, bind.
  rewrite HD, Ht, Hnever. simpl. unfold rangeDigests.
  apply checkEventDigests_loop_match; [by rewrite Ht|].
  apply Forall_forall. intros [alg d] Hin%elem_of_enumerate.
  destruct (Hdigests _ _ Hin) as (? & ? & _). done.
Qed.

(** *** The cross-check on resolved measured bytes *)

Lemma checkEventDigests_resolved (event : Event) (order : ByteOrder)
    (options : LogCheckOptions) (report : LogCheckReport) (rt rt1 : Runtime) (mb : slice) :
  determineMeasuredBytes event order options rt = Returns mb rt1 →
  EventType_of event = EventTypeNoAction ∨ mb = None ∨ knownAlgorithms event →
  checkEventDigests event order options report rt =
  Returns (report ++ mismatchEntries event (expectedDigest (EventType_of event) mb)
                       (enumerate (hd [] rt1) (Digests event))) (tl rt1).
Proof.
  intros Hmb Hsafe. unfold checkEventDigests, bind. rewrite Hmb. unfold rangeDigests.
  apply checkEventDigests_loop_expected.
  destruct Hsafe as [?|[?|Hk]]; auto. right; right.
  apply Forall_forall. intros [alg d] Hin%elem_of_enumerate. by apply (Hk alg d).
Qed.

Lemma inspected_empty (event : Event) (rt : Runtime) :
  Digests event = ∅ → inspected event rt = None.
Proof. intros Hm. unfold inspected. by rewrite Hm, enumerate_empty. Qed.

Lemma determineMeasuredBytes_empty (event : Event) (order : ByteOrder)
    (options : LogCheckOptions) (rt : Runtime) :
  Digests event = ∅ →
  ∃ mb rt', determineMeasuredBytes event order options rt = Returns mb rt'.
Proof.
  intros Hm. destruct (decide (EventType_of event = EventTypeSeparator)) as [Ht|Ht].
  - unfold determineMeasuredBytes, bind. rewrite Ht.
    destruct (Data event); simpl;
      rewrite ?isSeparatorEventError_inspected, ?inspected_empty by done;
      unfold ret; simpl;
      repeat match goal with
             | |- context [match ?x with Some _ => _ | None => _ end] => destruct x
             end; eauto.
  - destruct (determineMeasuredBytes_no_range event order options Ht) as [mb Hmb].
    eauto.
Qed.

(** C10: for an event whose digest mapping is empty the digest cross-check
    returns the report unchanged; when the event is a Separator the detector
    classifies it as not an error separator, so the structural validator
    applies the payload rule of normal separators to it. *)
Theorem checkEventDigests_empty (event : Event) (order : ByteOrder)
    (options : LogCheckOptions) (report : LogCheckReport) (rt : Runtime) :
  Digests event = ∅ →
  (∃ rt', checkEventDigests event order options report rt = Returns report rt') ∧
  (EventType_of event = EventTypeSeparator →
     isSeparatorEventError event order rt = Returns false (tl rt) ∧
     checkEventData event order rt =
       Returns (separatorPayloadError order (slice_bytes (Bytes (Data event)))) (tl rt)).
Proof.
  intros Hm. split.
  - destruct (determineMeasuredBytes_empty event order options rt Hm) as (mb & rt' & Hmb).
    exists (tl rt'). unfold checkEventDigests, bind, rangeDigests.
    by rewrite Hmb, Hm, enumerate_empty.
  - intros Ht.
    assert (isSeparatorEventError event order rt = Returns false (tl rt)) as Hn
      by (by rewrite isSeparatorEventError_inspected, inspected_empty).
    split; [done|]. by apply checkEventData_not_error.
Qed.

(** *** EFI variable records *)

Lemma determineMeasuredBytes_EFIVariable (event : Event) (order : ByteOrder)
    (options : LogCheckOptions) (rt : Runtime) raw guid name vdata :
  Data event = EFIVariableEventData raw guid name vdata →
  (EventType_of event = EventTypeEFIVariableBoot →
   EfiVariableBootQuirk options = false →
   determineMeasuredBytes event order options rt = Returns vdata rt) ∧
  (EventType_of event ≠ EventTypeEFIVariableBoot ∨ EfiVariableBootQuirk options = true →
   EventType_of event ≠ EventTypeSeparator ∨ raw ≠ None →
   determineMeasuredBytes event order options rt = Returns raw rt).
Proof.
  intros HD. unfold determineMeasuredBytes, bind. rewrite HD. simpl. split.
  - intros Ht ->. rewrite Ht. simpl. by destruct vdata.
  - intros Hother Hnil.
    assert (bool_decide (EventType_of event = EventTypeEFIVariableBoot)
            && negb (EfiVariableBootQuirk options) = false) as ->.
    { destruct Hother as [Hne| ->]; [by rewrite bool_decide_eq_false_2|].
      apply andb_false_r. }
    simpl. destruct raw as [record|]; [done|].
    destruct Hnil as [Hsep|?]; [|done]. by rewrite decide_False.
Qed.

Lemma mismatchEntry_differs (event : Event) (f g : AlgorithmId → option (list byte))
    (alg : AlgorithmId) (d : Digest) x y :
  f alg = Some x → g alg = Some y → x ≠ y →
  mismatchEntry event f (alg, d) ≠ mismatchEntry event g (alg, d).
Proof.
  intros Hf Hg Hne. unfold mismatchEntry. simpl. rewrite Hf, Hg.
  repeat case_decide; congruence.
Qed.

Lemma expectedDigest_measured (t : EventType) (measured : list byte) (alg : AlgorithmId) :
  t ≠ EventTypeNoAction → expectedDigest t (Some measured) alg = hashOf measured alg.
Proof. intros Ht. unfold expectedDigest. by rewrite decide_False. Qed.

Lemma mismatchEntry_ext (event : Event) (f g : AlgorithmId → option (list byte))
    (p : AlgorithmId * Digest) :
  f p.1 = g p.1 → mismatchEntry event f p = mismatchEntry event g p.
Proof. unfold mismatchEntry. by intros ->. Qed.

Lemma mismatchEntries_ext (event : Event) (f g : AlgorithmId → option (list byte))
    (l : list (AlgorithmId * Digest)) :
  (∀ alg, f alg = g alg) → mismatchEntries event f l = mismatchEntries event g l.
Proof.
  intros Hfg. induction l as [|p l IH]; [done|].
  by rewrite !mismatchEntries_cons, IH, (mismatchEntry_ext _ f g).
Qed.

(** The cross-check of an event that is not a NoAction event, on measured
    bytes the resolver produced: the report is extended by one entry,
    carrying the hash of the measured bytes, for every algorithm whose
    recorded digest is not that hash. *)
Lemma checkEventDigests_measured (event : Event) (order : ByteOrder)
    (options : LogCheckOptions) (report : LogCheckReport) (rt rt1 : Runtime)
    (measured : list byte) :
  determineMeasuredBytes event order options rt = Returns (Some measured) rt1 →
  EventType_of event ≠ EventTypeNoAction →
  knownAlgorithms event →
  ∃ es,
    checkEventDigests event order options report rt = Returns (report ++ es) (tl rt1) ∧
    ∀ alg, entriesAbout alg es = mismatchEntriesAbout event (hashOf measured) alg.
Proof.
  intros Hmb Ht Hk.
  exists (mismatchEntries event (hashOf measured) (enumerate (hd [] rt1) (Digests event))).
  split.
  - erewrite checkEventDigests_resolved by eauto.
    do 2 f_equal. apply mismatchEntries_ext.
    intros alg. by apply expectedDigest_measured.
  - intros alg. apply entriesAbout_mismatchEntries.
Qed.

(** C5: for an event that carries an EFI variable record, the resolver
    returns the variable's value when the event type is EFIVariableBoot and
    the quirk option is off, and the full encoded record in every other case
    (on a Separator event, a record that is not nil); on an event that is
    not a NoAction event the cross-check then expects, for every algorithm,
    the hash of those bytes; and on an EFIVariableBoot event the two settings
    of the option give different reports as soon as the value and the record
    have different hashes for an algorithm of the event: a digest that is the
    hash of the value passes with the quirk off and is reported, with the
    hash of the record as the expected value, with the quirk on. *)
Theorem checkEventDigests_EFIVariable (event : Event) (order : ByteOrder)
    raw guid name vdata :
  Data event = EFIVariableEventData raw guid name vdata →
  (∀ options rt,
     (EventType_of event = EventTypeEFIVariableBoot →
      EfiVariableBootQuirk options = false →
      determineMeasuredBytes event order options rt = Returns vdata rt) ∧
     (EventType_of event ≠ EventTypeEFIVariableBoot ∨ EfiVariableBootQuirk options = true →
      EventType_of event ≠ EventTypeSeparator ∨ raw ≠ None →
      determineMeasuredBytes event order options rt = Returns raw rt)) ∧
  (EventType_of event ≠ EventTypeNoAction → knownAlgorithms event →
   (∀ options report rt measured,
      determineMeasuredBytes event order options rt = Returns (Some measured) rt →
      ∃ es,
        checkEventDigests event order options report rt = Returns (report ++ es) (tl rt) ∧
        ∀ alg, entriesAbout alg es = mismatchEntriesAbout event (hashOf measured) alg) ∧
   (EventType_of event = EventTypeEFIVariableBoot →
    ∀ record value alg d grub rt,
      raw = Some record → vdata = Some value →
      Digests event !! alg = Some d →
      digestOf alg value ≠ digestOf alg record →
      let off := {| EnableGrub := grub; EfiVariableBootQuirk := false |} in
      let on := {| EnableGrub := grub; EfiVariableBootQuirk := true |} in
      reportOf (checkEventDigests event order off [] rt) ≠
        reportOf (checkEventDigests event order on [] rt) ∧
      (slice_bytes d = digestOf alg value →
       entriesAbout alg (reportOf (checkEventDigests event order off [] rt)) = [] ∧
       entriesAbout alg (reportOf (checkEventDigests event order on [] rt)) =
         [UnexpectedDigestValueReportEntry event alg (Some (digestOf alg record))]))).
Proof.
  intros HD.
  pose proof (λ options rt,
    determineMeasuredBytes_EFIVariable event order options rt _ _ _ _ HD) as Hres.
  split; [done|]. intros Ht Hk. split.
  - intros options report rt measured Hmb. by eapply checkEventDigests_measured.
  - intros HBoot record value alg d grub rt -> -> Hlk Hne off on.
    destruct (Hres off rt) as [Hoff _]. specialize (Hoff HBoot eq_refl).
    destruct (Hres on rt) as [_ Hon].
    assert (Some record ≠ (None : slice)) as Hnn by done.
    specialize (Hon (or_intror eq_refl) (or_intror Hnn)).
    destruct (checkEventDigests_measured _ _ _ [] _ _ _ Hoff Ht Hk) as (es1 & -> & H1).
    destruct (checkEventDigests_measured _ _ _ [] _ _ _ Hon Ht Hk) as (es2 & -> & H2).
    simpl. specialize (H1 alg). specialize (H2 alg).
    unfold mismatchEntriesAbout in H1, H2. rewrite Hlk in H1, H2. split.
    + intros Heq. rewrite Heq, H2 in H1. symmetry in H1. revert H1.
      by apply mismatchEntry_differs with (x := digestOf alg value) (y := digestOf alg record).
    + intros Hd. rewrite H1, H2. unfold mismatchEntry, hashOf. simpl.
      rewrite decide_True by done. rewrite decide_False by congruence. done.
Qed.

(** *** Bootloader and kernel command lines *)





(** *** The driver *)

(** One turn of the driver's loop, in terms of what [nextEventInternal]
    yields. *)
Lemma checkLog_loop_nextEventInternal (log : Log) (options : LogCheckOptions)
    (report : LogCheckReport) (rt : Runtime) :
  checkLog_loop (stream log) (Spec_of log) (byteOrder log) options report rt =
  match nextEventInternal log with
  | ((None, err), _) =>
      if decide (err = Some EOF) then Returns (Some report, None) rt
      else Returns (None, err) rt
  | ((Some event, err), log') =>
      match checkEvent event err (Spec_of log) (byteOrder log) options report rt with
      | Returns report' rt' =>
          checkLog_loop (stream log') (Spec_of log') (byteOrder log') options report' rt'
      | Panics msg => Panics msg
      end
  end.
Proof.
  unfold nextEventInternal.
  destruct (stream log) as [|[[event|] err] rest]; simpl; try done.
  by case_decide.
Qed.

Lemma checkEvent_entries (event : Event) (dataErr : option error) (spec : Spec)
    (order : ByteOrder) (options : LogCheckOptions) (report : LogCheckReport)
    (rt : Runtime) :
  checkEvent event dataErr spec order options report rt =
  match checkEventData event order rt with
  | Returns err rt1 =>
      mapOutcome
        (λ es, report ++ placementEntries event spec ++
               invalidEventDataEntries event dataErr ++
               invalidEventDataEntries event err ++ es)
        (checkEventDigests event order options [] rt1)
  | Panics msg => Panics msg
  end.
Proof.
  unfold checkEvent, bind, placementEntries.
  destruct (checkEventData event order rt) as [err rt1|]; [|done].
  rewrite checkEventDigests_acc.
  destruct (checkEventDigests event order options [] rt1) as [es rt2|]; [|done].
  simpl. f_equal.
  destruct (isExpectedEventTypeForIndex _ _ _), dataErr, err; simpl;
    by rewrite <- ?app_assoc, ?app_nil_r.
Qed.

Lemma checkLog_loop_events events final rest (spec : Spec) (order : ByteOrder)
    (options : LogCheckOptions) (report : LogCheckReport) (rt : Runtime) :
  checkLog_loop (eventPulls events ++ (None, final) :: rest) spec order options report rt =
  match checkEvents events spec order options report rt with
  | Returns report' rt' =>
      Returns (if decide (final = Some EOF) then (Some report', None) else (None, final)) rt'
  | Panics msg => Panics msg
  end.
Proof.
  revert report rt. induction events as [|[event e] events IH]; intros report rt; simpl.
  - unfold ret. by case_decide.
  - unfold bind. destruct (checkEvent event e spec order options report rt); [|done].
    apply IH.
Qed.

Lemma checkLog_loop_exhausted events (spec : Spec) (order : ByteOrder)
    (options : LogCheckOptions) (report : LogCheckReport) (rt : Runtime) :
  checkLog_loop (eventPulls events) spec order options report rt =
  mapOutcome (λ report', (Some report', None))
    (checkEvents events spec order options report rt).
Proof.
  revert report rt. induction events as [|[event e] events IH]; intros report rt; simpl.
  - done.
  - unfold bind. destruct (checkEvent event e spec order options report rt); [|done].
    apply IH.
Qed.

(** C6: on a stream that yields the events of a list and then no event,
    the driver returns, after the per-event checks of those events in order,
    the accumulated report and no error when the stream signalled [io.EOF],
    and no report and the stream's error in every other case, so it returns
    a report exactly when the stream ended with [io.EOF]; an event that comes
    with a decode error gets the same placement, structural and digest
    checks as without it, with one InvalidEventData entry carrying the decode
    error after the placement entry, and the loop goes on to the next
    record. *)
Theorem checkLog_driver (spec : Spec) (order : ByteOrder) (options : LogCheckOptions) :
  (∀ events final rest rt,
     checkLog {| Spec_of := spec; byteOrder := order;
                 stream := eventPulls events ++ (None, final) :: rest |} options rt =
     match checkEvents events spec order options [] rt with
     | Returns report rt' =>
         Returns (if decide (final = Some EOF) then (Some report, None)
                  else (None, final)) rt'
     | Panics msg => Panics msg
     end) ∧
  (∀ events final rest rt report err rt',
     checkLog {| Spec_of := spec; byteOrder := order;
                 stream := eventPulls events ++ (None, final) :: rest |} options rt =
       Returns (Some report, err) rt' →
     final = Some EOF ∧ err = None ∧
     checkEvents events spec order options [] rt = Returns report rt') ∧
  (∀ event dataErr rest report rt,
     checkEvents ((event, dataErr) :: rest) spec order options report rt =
     match checkEvent event dataErr spec order options report rt with
     | Returns report' rt' => checkEvents rest spec order options report' rt'
     | Panics msg => Panics msg
     end) ∧
  (∀ event e report rt,
     checkEvent event (Some e) spec order options report rt =
     match checkEventData event order rt with
     | Returns err rt1 =>
         mapOutcome
           (λ es, report ++ placementEntries event spec ++
                  [InvalidEventDataReportEntry event (Some e)] ++
                  invalidEventDataEntries event err ++ es)
           (checkEventDigests event order options [] rt1)
     | Panics msg => Panics msg
     end) ∧
  (∀ event report rt,
     checkEvent event None spec order options report rt =
     match checkEventData event order rt with
     | Returns err rt1 =>
         mapOutcome
           (λ es, report ++ placementEntries event spec ++
                  invalidEventDataEntries event err ++ es)
           (checkEventDigests event order options [] rt1)
     | Panics msg => Panics msg
     end).
Proof.
  split; [|split; [|split; [|split]]].
  - intros events final rest rt. unfold checkLog. simpl. apply checkLog_loop_events.
  - intros events final rest rt report err rt'. unfold checkLog. simpl.
    rewrite checkLog_loop_events.
    destruct (checkEvents events spec order options [] rt) as [r rt1|]; [|done].
    case_decide; intros [= <- <- <-]; done.
  - intros event dataErr rest report rt. done.
  - intros event e report rt. by rewrite checkEvent_entries.
  - intros event report rt. by rewrite checkEvent_entries.
Qed.

(** *** Absence of panics *)

Lemma safe_ret {A} (a : A) : safe (ret a).
Proof. intros rt. unfold ret. eauto. Qed.

Lemma safe_bind {A B} (m : Go A) (f : A → Go B) :
  safe m → (∀ a, safe (f a)) → safe (bind m f).
Proof.
  intros Hm Hf rt. unfold bind.
  destruct (Hm rt) as (a & rt' & ->). apply Hf.
Qed.

Lemma safe_rangeDigests (m : DigestMap) : safe (rangeDigests m).
Proof. intros rt. unfold rangeDigests. eauto. Qed.

Lemma safe_hash (data : slice) (alg : AlgorithmId) :
  isKnownAlgorithm alg = true → safe (hash data alg).
Proof. intros Hk rt. rewrite hash_known by done. eauto. Qed.

Lemma inspected_lookup (event : Event) (rt : Runtime) alg d :
  inspected event rt = Some (alg, d) → Digests event !! alg = Some d.
Proof.
  unfold inspected. intros Hi%head_Some_elem_of. by apply elem_of_enumerate in Hi.
Qed.

Lemma safe_isSeparatorEventError (event : Event) (order : ByteOrder) :
  EventType_of event = EventTypeSeparator → knownAlgorithms event →
  safe (isSeparatorEventError event order).
Proof.
  intros Ht Hk rt. rewrite isSeparatorEventError_inspected by done.
  destruct (inspected event rt) as [[alg d]|] eqn:Hi; [|eauto].
  apply inspected_lookup in Hi. rewrite (Hk _ _ Hi). eauto.
Qed.

Lemma safe_checkEventData (event : Event) (order : ByteOrder) :
  knownAlgorithms event → safe (checkEventData event order).
Proof.
  intros Hk rt.
  destruct (decide (EventType_of event = EventTypeSeparator)) as [Ht|Ht].
  - rewrite checkEventData_separator by done.
    destruct (safe_isSeparatorEventError event order Ht Hk rt) as ([] & rt' & ->); eauto.
  - unfold checkEventData.
    destruct (EventType_of event); try done; unfold ret;
      repeat case_decide; eauto.
Qed.

Lemma safe_determineMeasuredBytes (event : Event) (order : ByteOrder)
    (options : LogCheckOptions) :
  knownAlgorithms event → safe (determineMeasuredBytes event order options).
Proof.
  intros Hk rt.
  destruct (decide (EventType_of event = EventTypeSeparator)) as [Ht|Ht].
  - unfold determineMeasuredBytes, bind. rewrite Ht.
    destruct (Data event); simpl;
      try (destruct (safe_isSeparatorEventError event order Ht Hk rt) as ([] & rt' & ->);
           simpl);
      unfold ret;
      repeat match goal with
             | |- context [match ?x with Some _ => _ | None => _ end] => destruct x
             | |- context [if ?b then _ else _] => destruct b
             end; eauto.
  - destruct (determineMeasuredBytes_no_range event order options Ht) as [mb Hmb].
    eauto.
Qed.

Lemma safe_checkEventDigests (event : Event) (order : ByteOrder)
    (options : LogCheckOptions) (report : LogCheckReport) :
  knownAlgorithms event → safe (checkEventDigests event order options report).
Proof.
  intros Hk rt.
  destruct (safe_determineMeasuredBytes event order options Hk rt) as (mb & rt1 & Hmb).
  erewrite checkEventDigests_resolved by eauto. eauto.
Qed.

Lemma safe_checkEvent (event : Event) (dataErr : option error) (spec : Spec)
    (order : ByteOrder) (options : LogCheckOptions) (report : LogCheckReport) :
  knownAlgorithms event → safe (checkEvent event dataErr spec order options report).
Proof.
  intros Hk. unfold checkEvent. apply safe_bind.
  - by apply safe_checkEventData.
  - intros err. by apply safe_checkEventDigests.
Qed.

Lemma safe_checkLog_loop pulls (spec : Spec) (order : ByteOrder)
    (options : LogCheckOptions) (report : LogCheckReport) :
  (∀ event err, (Some event, err) ∈ pulls → knownAlgorithms event) →
  safe (checkLog_loop pulls spec order options report).
Proof.
  revert report. induction pulls as [|[[event|] err] pulls IH]; intros report Hk; simpl.
  - apply safe_ret.
  - apply safe_bind.
    + apply safe_checkEvent. apply (Hk event err). left.
    + intros report'. apply IH. intros ev e Hin. apply (Hk ev e). by right.
  - case_decide; apply safe_ret.
Qed.

(** C8: when every algorithm of every event's digest mapping is one of
    SHA1, SHA256, SHA384 and SHA512, the hash dispatcher returns, the
    separator-error detector returns on every Separator event, the per-event
    check returns on every event whatever its type (it calls the detector on
    Separator events only), and so does the driver on every stream: no run
    panics. *)
Theorem checkLog_never_panics :
  (∀ data alg, isKnownAlgorithm alg = true → safe (hash data alg)) ∧
  (∀ event order,
     EventType_of event = EventTypeSeparator → knownAlgorithms event →
     safe (isSeparatorEventError event order)) ∧
  (∀ event dataErr spec order options report,
     knownAlgorithms event →
     safe (checkEvent event dataErr spec order options report)) ∧
  (∀ log options,
     (∀ event err, (Some event, err) ∈ stream log → knownAlgorithms event) →
     safe (checkLog log options)).
Proof.
  split; [|split; [|split]].
  - apply safe_hash.
  - apply safe_isSeparatorEventError.
  - intros. by apply safe_checkEvent.
  - intros log options Hk. by apply safe_checkLog_loop.
Qed.

(** *** Independence of the order of enumeration *)

Lemma enumerate_small (ks : list AlgorithmId) (m : DigestMap) :
  (size m ≤ 1)%nat → enumerate ks m = map_to_list m.
Proof.
  intros Hs. pose proof (enumerate_perm ks m) as Hp.
  rewrite <- length_map_to_list in Hs.
  destruct (map_to_list m) as [|x [|y l]]; simpl in Hs; [| |lia].
  - by apply Permutation_nil_r.
  - by apply Permutation_singleton_r.
Qed.

Lemma oblivious_ret {A} (a : A) : oblivious (ret a).
Proof. by intros rt1 rt2. Qed.

Lemma oblivious_panic {A} (msg : string) : oblivious (panic (A := A) msg).
Proof. by intros rt1 rt2. Qed.

Lemma oblivious_bind {A B} (m : Go A) (f : A → Go B) :
  oblivious m → (∀ a, oblivious (f a)) → oblivious (bind m f).
Proof.
  intros Hm Hf rt1 rt2. unfold bind. specialize (Hm rt1 rt2).
  destruct (m rt1) as [a1 rt1'|], (m rt2) as [a2 rt2'|]; simpl in Hm; try done.
  - injection Hm as ->. apply Hf.
  - injection Hm as ->. done.
Qed.

Lemma oblivious_rangeDigests (m : DigestMap) :
  (size m ≤ 1)%nat → oblivious (rangeDigests m).
Proof. intros Hs rt1 rt2. unfold rangeDigests. simpl. by rewrite !enumerate_small. Qed.

Lemma oblivious_hash (data : slice) (alg : AlgorithmId) : oblivious (hash data alg).
Proof. by destruct alg. Qed.

Ltac oblivious_step :=
  first
    [ apply oblivious_ret
    | apply oblivious_panic
    | apply oblivious_hash
    | apply oblivious_rangeDigests; assumption
    | apply oblivious_bind; [|intros ?]
    | match goal with
      | |- oblivious (if ?b then _ else _) => destruct b
      | |- oblivious (match ?x with _ => _ end) => destruct x
      | |- oblivious (let '(_, _) := ?x in _) => destruct x
      end ].

Lemma oblivious_isSeparatorEventError (event : Event) (order : ByteOrder) :
  (size (Digests event) ≤ 1)%nat → oblivious (isSeparatorEventError event order).
Proof. intros Hs. unfold isSeparatorEventError. repeat oblivious_step. Qed.

Lemma oblivious_checkEventData (event : Event) (order : ByteOrder) :
  (size (Digests event) ≤ 1)%nat → oblivious (checkEventData event order).
Proof.
  intros Hs. pose proof (oblivious_isSeparatorEventError event order Hs).
  unfold checkEventData.
  destruct (EventType_of event); repeat (assumption || oblivious_step).
Qed.

Lemma oblivious_determineMeasuredBytes (event : Event) (order : ByteOrder)
    (options : LogCheckOptions) :
  (size (Digests event) ≤ 1)%nat → oblivious (determineMeasuredBytes event order options).
Proof.
  intros Hs. pose proof (oblivious_isSeparatorEventError event order Hs).
  unfold determineMeasuredBytes.
  apply oblivious_bind; [|intros ?; repeat oblivious_step].
  destruct (Data event), (EventType_of event); repeat (assumption || oblivious_step).
Qed.

Lemma oblivious_isExpectedDigestValue (digest : Digest) (t : EventType)
    (alg : AlgorithmId) (mb : slice) :
  oblivious (isExpectedDigestValue digest t alg mb).
Proof. unfold isExpectedDigestValue. repeat oblivious_step. Qed.

Lemma oblivious_checkEventDigests_loop (event : Event) (mb : slice)
    (l : list (AlgorithmId * Digest)) (report : LogCheckReport) :
  oblivious (checkEventDigests_loop event mb l report).
Proof.
  revert report. induction l as [|[alg d] l IH]; intros report; simpl.
  - apply oblivious_ret.
  - apply oblivious_bind; [apply oblivious_isExpectedDigestValue|].
    intros [ok e]. apply IH.
Qed.

Lemma oblivious_checkEventDigests (event : Event) (order : ByteOrder)
    (options : LogCheckOptions) (report : LogCheckReport) :
  (size (Digests event) ≤ 1)%nat → oblivious (checkEventDigests event order options report).
Proof.
  intros Hs. unfold checkEventDigests.
  apply oblivious_bind; [by apply oblivious_determineMeasuredBytes|]. intros mb.
  apply oblivious_bind; [by apply oblivious_rangeDigests|]. intros l.
  apply oblivious_checkEventDigests_loop.
Qed.

Lemma oblivious_checkEvent (event : Event) (dataErr : option error) (spec : Spec)
    (order : ByteOrder) (options : LogCheckOptions) (report : LogCheckReport) :
  (size (Digests event) ≤ 1)%nat →
  oblivious (checkEvent event dataErr spec order options report).
Proof.
  intros Hs. unfold checkEvent.
  apply oblivious_bind; [by apply oblivious_checkEventData|]. intros err.
  by apply oblivious_checkEventDigests.
Qed.

Lemma oblivious_checkLog_loop pulls (spec : Spec) (order : ByteOrder)
    (options : LogCheckOptions) (report : LogCheckReport) :
  (∀ event err, (Some event, err) ∈ pulls → (size (Digests event) ≤ 1)%nat) →
  oblivious (checkLog_loop pulls spec order options report).
Proof.
  revert report. induction pulls as [|[[event|] err] pulls IH]; intros report Hs; simpl.
  - apply oblivious_ret.
  - apply oblivious_bind.
    + apply oblivious_checkEvent. apply (Hs event err). left.
    + intros report'. apply IH. intros ev e Hin. apply (Hs ev e). by right.
  - case_decide; apply oblivious_ret.
Qed.

(** C7, as the code has it: when no event of the stream has more than one
    algorithm in its digest mapping, two runs of the checker on the same
    events, byte order, spec version and options yield the same result,
    entry for entry, whatever orders of enumeration the runtime picks; so do
    two runs of the per-event checks on each such event and two
    classifications of each such Separator event. *)
Theorem checkLog_deterministic_single_digest (log : Log) (options : LogCheckOptions) :
  (∀ event err, (Some event, err) ∈ stream log → (size (Digests event) ≤ 1)%nat) →
  (∀ rt1 rt2, valueOf (checkLog log options rt1) = valueOf (checkLog log options rt2)) ∧
  (∀ event err report rt1 rt2, (Some event, err) ∈ stream log →
     valueOf (checkEvent event err (Spec_of log) (byteOrder log) options report rt1) =
     valueOf (checkEvent event err (Spec_of log) (byteOrder log) options report rt2)) ∧
  (∀ event err rt1 rt2, (Some event, err) ∈ stream log →
     valueOf (isSeparatorEventError event (byteOrder log) rt1) =
     valueOf (isSeparatorEventError event (byteOrder log) rt2)).
Proof.
  intros Hs. split; [|split].
  - by apply oblivious_checkLog_loop.
  - intros event err report rt1 rt2 Hin. apply oblivious_checkEvent. eauto.
  - intros event err rt1 rt2 Hin. apply oblivious_isSeparatorEventError. eauto.
Qed.

(** * Further properties of the checker *)

(** *** Placement and the spec version *)

(** X1: a placement that is valid for a spec version is valid for every
    older one. *)
Theorem isExpectedEventTypeForIndex_older_spec (t : EventType) (i : PCRIndex)
    (spec spec' : Spec) :
  spec' ≤ spec →
  isExpectedEventTypeForIndex t i spec = true →
  isExpectedEventTypeForIndex t i spec' = true.
Proof.
  intros Hle. unfold isExpectedEventTypeForIndex.
  destruct (7 <? i); [done|].
  destruct t; try done;
    rewrite !andb_true_iff, !N.leb_le; intros [? ?]; split; try done; lia.
Qed.

(** X2: an event type is refused at every PCR index from 0 to 7 exactly when
    it is EventTag, IPL or IPLPartitionData and the spec version is above the
    PC-Client profile. *)
Theorem isExpectedEventTypeForIndex_nowhere (t : EventType) (spec : Spec) :
  (∀ i, i ≤ 7 → isExpectedEventTypeForIndex t i spec = false) ↔
  t ∈ legacyEventTypes ∧ SpecPCClient < spec.
Proof.
  unfold legacyEventTypes. split.
  - intros Hnone.
    assert (∀ i, i ≤ 7 → isExpectedEventTypeForIndex t i spec ≠ true) as Hno.
    { intros i Hi. rewrite (Hnone i Hi). done. }
    destruct t;
      try (exfalso;
           first [ by apply (Hno 0) | by apply (Hno 1) | by apply (Hno 2)
                 | by apply (Hno 4) | by apply (Hno 5) | by apply (Hno 7) ]).
    + split; [set_solver|]. specialize (Hnone 0 ltac:(lia)).
      unfold isExpectedEventTypeForIndex in Hnone. simpl in Hnone.
      by apply N.leb_gt in Hnone.
    + split; [set_solver|]. specialize (Hnone 4 ltac:(lia)).
      unfold isExpectedEventTypeForIndex in Hnone. simpl in Hnone.
      by apply N.leb_gt in Hnone.
    + split; [set_solver|]. specialize (Hnone 5 ltac:(lia)).
      unfold isExpectedEventTypeForIndex in Hnone. simpl in Hnone.
      by apply N.leb_gt in Hnone.
  - intros [Ht Hs] i Hi. apply N.leb_gt in Hs.
    unfold isExpectedEventTypeForIndex.
    replace (7 <? i) with false by (symmetry; apply N.ltb_ge; lia).
    repeat (apply elem_of_cons in Ht as [->|Ht]); [..|by apply not_elem_of_nil in Ht];
      by rewrite Hs, andb_false_r.
Qed.

(** *** The structural validator outside Separator events *)

Lemma checkEventData_pure (event : Event) (order : ByteOrder) :
  EventType_of event ≠ EventTypeSeparator →
  ∃ err, ∀ rt, checkEventData event order rt = Returns err rt.
Proof.
  intros Ht. unfold checkEventData.
  destruct (EventType_of event); try done; unfold ret;
    repeat case_decide; eauto.
Qed.

(** X3: on an event that is not a Separator the structural validator does
    not enumerate the digest mapping, cannot panic, and returns no error
    exactly when the payload is well formed for the event type: 4 bytes for
    CompactHash, the literal texts for OmitBootDeviceEvents and
    EFIHCRTMEvent, anything for every other type. *)
Theorem checkEventData_wellFormed (event : Event) (order : ByteOrder) :
  EventType_of event ≠ EventTypeSeparator →
  ∃ err,
    (∀ rt, checkEventData event order rt = Returns err rt) ∧
    (err = None ↔ payloadWellFormed event).
Proof.
  intros Ht. unfold checkEventData, payloadWellFormed.
  destruct (EventType_of event); try done; unfold ret;
    try (exists None; by split);
    case_decide; eexists; (split; [reflexivity|]); split; done.
Qed.

(** *** The resolver *)

(** X4: on a Separator event the resolver never returns nil: it returns a
    byte field of the payload or the 4-byte encoding of the error value, so
    every digest of a Separator event is cross-checked. *)
Theorem determineMeasuredBytes_Separator (event : Event) (order : ByteOrder)
    (options : LogCheckOptions) (rt rt' : Runtime) (out : slice) :
  EventType_of event = EventTypeSeparator →
  determineMeasuredBytes event order options rt = Returns out rt' →
  out ≠ None ∧
  (out ∈ payloadFields (Data event) ∨
   out = Some (PutUint32 order separatorEventErrorValue)).
Proof.
  intros Ht. unfold determineMeasuredBytes, bind, payloadFields. rewrite Ht.
  destruct (Data event) as [raw|raw|raw g n v|raw|raw c|raw c|raw]; simpl;
    try destruct (isSeparatorEventError event order rt) as [[] rt1|]; simpl;
    try done; unfold ret;
    repeat match goal with
           | |- context [match ?x with Some _ => _ | None => _ end] => destruct x
           | |- context [if ?b then _ else _] => destruct b
           end;
    intros [= <- <-]; (split; [done|]); set_solver.
Qed.

(** X5: on an event that is not a Separator the resolver does not enumerate
    the digest mapping, cannot panic, does not depend on the byte order, and
    returns nil or one of the byte fields of the payload. *)
Theorem determineMeasuredBytes_payload (event : Event) (options : LogCheckOptions) :
  EventType_of event ≠ EventTypeSeparator →
  ∃ out,
    (∀ order rt, determineMeasuredBytes event order options rt = Returns out rt) ∧
    (out = None ∨ out ∈ payloadFields (Data event)).
Proof.
  intros Ht. unfold determineMeasuredBytes, bind, payloadFields.
  destruct (Data event) as [raw|raw|raw g n v|raw|raw c|raw c|raw];
    destruct (EventType_of event); try done; simpl; unfold ret;
    repeat match goal with
           | |- context [match ?x with Some _ => _ | None => _ end] => destruct x
           | |- context [if ?b then _ else _] => destruct b
           end;
    eexists; (split; [reflexivity|]); set_solver.
Qed.

(** *** What the cross-check returns and when it panics *)

Lemma isExpectedDigestValue_returns (d : Digest) (t : EventType) (alg : AlgorithmId)
    (mb : slice) (rt rt1 : Runtime) (ok : bool) (e : slice) :
  isExpectedDigestValue d t alg mb rt = Returns (ok, e) rt1 →
  rt1 = rt ∧
  match expectedDigest t mb alg with
  | Some x => ok = bool_decide (slice_bytes d = x) ∧ e = Some x
  | None => ok = true ∧ e = None
  end.
Proof.
  unfold isExpectedDigestValue, expectedDigest, bind.
  destruct (decide (t = EventTypeNoAction)) as [Ht|Ht].
  - unfold ret. rewrite zeroDigests_zeroDigestOf.
    destruct (zeroDigestOf alg); simpl; by intros [= <- <- <-].
  - destruct mb as [m|]; simpl; [|by intros [= <- <- <-]].
    destruct alg; simpl; try done; by intros [= <- <- <-].
Qed.

Lemma isExpectedDigestValue_panics (d : Digest) (t : EventType) (alg : AlgorithmId)
    (mb : slice) (rt : Runtime) (msg : string) :
  isExpectedDigestValue d t alg mb rt = Panics msg →
  msg = "Unhandled algorithm" ∧ t ≠ EventTypeNoAction ∧ mb ≠ None ∧
  isKnownAlgorithm alg = false.
Proof.
  unfold isExpectedDigestValue, bind.
  destruct (decide (t = EventTypeNoAction)) as [Ht|Ht].
  - unfold ret. by destruct (zeroDigests alg).
  - destruct mb as [m|]; simpl; [|done].
    destruct alg; simpl; try done. by intros [= <-].
Qed.

Lemma checkEventDigests_loop_returns (event : Event) (mb : slice)
    (l : list (AlgorithmId * Digest)) (report r : LogCheckReport) (rt rt' : Runtime) :
  checkEventDigests_loop event mb l report rt = Returns r rt' →
  rt' = rt ∧
  r = report ++ mismatchEntries event (expectedDigest (EventType_of event) mb) l.
Proof.
  revert report. induction l as [|[alg d] l IH]; intros report Hrun; simpl in Hrun.
  - unfold ret in Hrun. injection Hrun as <- <-. by rewrite app_nil_r.
  - unfold bind in Hrun.
    destruct (isExpectedDigestValue d (EventType_of event) alg mb rt)
      as [[ok e] rt1|] eqn:Hexp; [|done].
    apply isExpectedDigestValue_returns in Hexp as [-> Hexp].
    apply IH in Hrun as [-> ->]. split; [done|].
    rewrite mismatchEntries_cons. unfold mismatchEntry at 1. simpl.
    destruct (expectedDigest (EventType_of event) mb alg) as [x|].
    + destruct Hexp as [-> ->].
      case_bool_decide; case_decide; try done; by rewrite <- ?app_assoc.
    + by destruct Hexp as [-> ->].
Qed.

Lemma checkEventDigests_loop_panics (event : Event) (mb : slice)
    (l : list (AlgorithmId * Digest)) (report : LogCheckReport) (rt : Runtime)
    (msg : string) :
  checkEventDigests_loop event mb l report rt = Panics msg →
  msg = "Unhandled algorithm" ∧ EventType_of event ≠ EventTypeNoAction ∧ mb ≠ None ∧
  ∃ p, p ∈ l ∧ isKnownAlgorithm p.1 = false.
Proof.
  revert report. induction l as [|[alg d] l IH]; intros report; simpl; [done|].
  unfold bind.
  destruct (isExpectedDigestValue d (EventType_of event) alg mb rt)
    as [[ok e] rt1|] eqn:Hexp.
  - apply isExpectedDigestValue_returns in Hexp as [-> _].
    intros (? & ? & ? & p & Hin & Hp)%IH. repeat split; try done.
    exists p. split; [by right|done].
  - intros [= <-]. apply isExpectedDigestValue_panics in Hexp as (-> & ? & ? & ?).
    repeat split; try done. exists (alg, d). split; [left|done].
Qed.

Lemma checkEventDigests_loop_unknown (event : Event) (m : list byte)
    (l : list (AlgorithmId * Digest)) (report : LogCheckReport) (rt : Runtime) :
  EventType_of event ≠ EventTypeNoAction →
  (∃ p, p ∈ l ∧ isKnownAlgorithm p.1 = false) →
  checkEventDigests_loop event (Some m) l report rt = Panics "Unhandled algorithm".
Proof.
  intros Ht. revert report.
  induction l as [|[alg d] l IH]; intros report (p & Hin & Hp).
  - by apply not_elem_of_nil in Hin.
  - simpl. unfold bind, isExpectedDigestValue. rewrite decide_False by done.
    unfold bind. destruct (isKnownAlgorithm alg) eqn:Hk.
    + rewrite hash_known by done. unfold ret. simpl.
      apply elem_of_cons in Hin as [->|Hin]; [simpl in Hp; congruence|].
      apply IH. eauto.
    + by destruct alg.
Qed.

Lemma mismatchEntries_no_expectation (event : Event)
    (f : AlgorithmId → option (list byte)) (l : list (AlgorithmId * Digest)) :
  (∀ alg, f alg = None) → mismatchEntries event f l = [].
Proof.
  intros Hf. induction l as [|[alg d] l IH]; [done|].
  rewrite mismatchEntries_cons, IH. unfold mismatchEntry. simpl. by rewrite Hf.
Qed.

(** X6: when the resolver has no measured bytes for an event that is not a
    NoAction event, the cross-check reports nothing and cannot panic,
    whatever the recorded digests and even for algorithms outside the four. *)
Theorem checkEventDigests_no_expectation (event : Event) (order : ByteOrder)
    (options : LogCheckOptions) (report : LogCheckReport) (rt rt1 : Runtime) :
  EventType_of event ≠ EventTypeNoAction →
  determineMeasuredBytes event order options rt = Returns None rt1 →
  checkEventDigests event order options report rt = Returns report (tl rt1).
Proof.
  intros Ht Hmb. erewrite checkEventDigests_resolved by eauto.
  rewrite mismatchEntries_no_expectation; [by rewrite app_nil_r|].
  intros alg. unfold expectedDigest. by rewrite decide_False.
Qed.

(** X7: when the resolver has measured bytes for an event that is not a
    NoAction event and the digest mapping holds an algorithm outside the
    four, the cross-check panics with "Unhandled algorithm" under every
    order of enumeration. *)
Theorem checkEventDigests_unknown_algorithm (event : Event) (order : ByteOrder)
    (options : LogCheckOptions) (report : LogCheckReport) (rt rt1 : Runtime)
    (m : list byte) (alg : AlgorithmId) (d : Digest) :
  EventType_of event ≠ EventTypeNoAction →
  determineMeasuredBytes event order options rt = Returns (Some m) rt1 →
  Digests event !! alg = Some d →
  isKnownAlgorithm alg = false →
  checkEventDigests event order options report rt = Panics "Unhandled algorithm".
Proof.
  intros Ht Hmb Hlk Hk. unfold checkEventDigests, bind. rewrite Hmb.
  unfold rangeDigests. apply checkEventDigests_loop_unknown; [done|].
  exists (alg, d). split; [by apply elem_of_enumerate|done].
Qed.

Lemma isSeparatorEventError_panics (event : Event) (order : ByteOrder) (rt : Runtime)
    (msg : string) :
  EventType_of event = EventTypeSeparator →
  isSeparatorEventError event order rt = Panics msg →
  msg = "Unhandled algorithm" ∧
  ∃ alg d, Digests event !! alg = Some d ∧ isKnownAlgorithm alg = false.
Proof.
  intros Ht. rewrite isSeparatorEventError_inspected by done.
  destruct (inspected event rt) as [[alg d]|] eqn:Hi; [|done].
  apply inspected_lookup in Hi.
  destruct (isKnownAlgorithm alg) eqn:Hk; [done|].
  intros [= <-]. eauto.
Qed.

Lemma checkEventData_panics (event : Event) (order : ByteOrder) (rt : Runtime)
    (msg : string) :
  checkEventData event order rt = Panics msg →
  msg = "Unhandled algorithm" ∧ EventType_of event = EventTypeSeparator ∧
  ∃ alg d, Digests event !! alg = Some d ∧ isKnownAlgorithm alg = false.
Proof.
  destruct (decide (EventType_of event = EventTypeSeparator)) as [Ht|Ht].
  - rewrite checkEventData_separator by done.
    destruct (isSeparatorEventError event order rt) as [[] rt1|m] eqn:Hs; try done.
    intros [= <-]. apply isSeparatorEventError_panics in Hs as [-> ?]; done.
  - destruct (checkEventData_pure event order Ht) as [err Herr].
    by rewrite Herr.
Qed.

Lemma determineMeasuredBytes_panics (event : Event) (order : ByteOrder)
    (options : LogCheckOptions) (rt : Runtime) (msg : string) :
  determineMeasuredBytes event order options rt = Panics msg →
  msg = "Unhandled algorithm" ∧ EventType_of event = EventTypeSeparator ∧
  ∃ alg d, Digests event !! alg = Some d ∧ isKnownAlgorithm alg = false.
Proof.
  destruct (decide (EventType_of event = EventTypeSeparator)) as [Ht|Ht].
  - unfold determineMeasuredBytes, bind. rewrite Ht.
    destruct (Data event) as [raw|raw|raw g n v|raw|raw c|raw c|raw]; simpl;
      try destruct (isSeparatorEventError event order rt) as [[] rt1|m] eqn:Hs;
      simpl; unfold ret;
      repeat match goal with
             | |- context [match ?x with Some _ => _ | None => _ end] => destruct x
             | |- context [if ?b then _ else _] => destruct b
             end; try done.
    intros [= <-]. apply isSeparatorEventError_panics in Hs as [-> ?]; done.
  - destruct (determineMeasuredBytes_no_range event order options Ht) as [mb Hmb].
    by rewrite Hmb.
Qed.

Lemma checkEventDigests_panics (event : Event) (order : ByteOrder)
    (options : LogCheckOptions) (report : LogCheckReport) (rt : Runtime) (msg : string) :
  checkEventDigests event order options report rt = Panics msg →
  msg = "Unhandled algorithm" ∧ EventType_of event ≠ EventTypeNoAction ∧
  ∃ alg d, Digests event !! alg = Some d ∧ isKnownAlgorithm alg = false.
Proof.
  unfold checkEventDigests, bind.
  destruct (determineMeasuredBytes event order options rt) as [mb rt1|m] eqn:Hmb.
  - unfold rangeDigests.
    intros (-> & ? & _ & [alg d] & Hin%elem_of_enumerate & Hk)%checkEventDigests_loop_panics.
    eauto 10.
  - intros [= <-]. apply determineMeasuredBytes_panics in Hmb as (-> & Ht & ?).
    split; [done|]. split; [by rewrite Ht|done].
Qed.

Lemma checkEvent_panics (event : Event) (dataErr : option error) (spec : Spec)
    (order : ByteOrder) (options : LogCheckOptions) (report : LogCheckReport)
    (rt : Runtime) (msg : string) :
  checkEvent event dataErr spec order options report rt = Panics msg →
  msg = "Unhandled algorithm" ∧ EventType_of event ≠ EventTypeNoAction ∧
  ∃ alg d, Digests event !! alg = Some d ∧ isKnownAlgorithm alg = false.
Proof.
  unfold checkEvent, bind.
  destruct (checkEventData event order rt) as [err rt1|m] eqn:Hdata.
  - apply checkEventDigests_panics.
  - intros [= <-]. apply checkEventData_panics in Hdata as (-> & Ht & ?).
    split; [done|]. split; [by rewrite Ht|done].
Qed.

Lemma checkLog_loop_panics pulls (spec : Spec) (order : ByteOrder)
    (options : LogCheckOptions) (report : LogCheckReport) (rt : Runtime) (msg : string) :
  checkLog_loop pulls spec order options report rt = Panics msg →
  msg = "Unhandled algorithm" ∧
  ∃ event err alg d, (Some event, err) ∈ pulls ∧
    EventType_of event ≠ EventTypeNoAction ∧
    Digests event !! alg = Some d ∧ isKnownAlgorithm alg = false.
Proof.
  revert report rt.
  induction pulls as [|[[event|] err] pulls IH]; intros report rt; simpl; [done| |].
  - unfold bind.
    destruct (checkEvent event err spec order options report rt) as [r rt1|m] eqn:He.
    + intros (-> & ev & e & alg & d & Hin & ?)%IH. split; [done|].
      exists ev, e, alg, d. split; [by right|done].
    + intros [= <-]. apply checkEvent_panics in He as (-> & ? & alg & d & ? & ?).
      split; [done|]. exists event, err, alg, d. split; [left|done].
  - by case_decide.
Qed.

(** X8: the driver can panic in one way only: with "Unhandled algorithm",
    on a stream that holds an event, not a NoAction event, whose digest
    mapping has an algorithm outside the four; the panic "Invalid event type"
    of the separator-error detector is never raised by the driver. *)
Theorem checkLog_panics (log : Log) (options : LogCheckOptions) (rt : Runtime)
    (msg : string) :
  checkLog log options rt = Panics msg →
  msg = "Unhandled algorithm" ∧
  ∃ event err alg d, (Some event, err) ∈ stream log ∧
    EventType_of event ≠ EventTypeNoAction ∧
    Digests event !! alg = Some d ∧ isKnownAlgorithm alg = false.
Proof. apply checkLog_loop_panics. Qed.

(** *** The entries of one event *)

Lemma checkEventDigests_returns (event : Event) (order : ByteOrder)
    (options : LogCheckOptions) (report r : LogCheckReport) (rt rt' : Runtime) :
  checkEventDigests event order options report rt = Returns r rt' →
  ∃ mb rt1,
    determineMeasuredBytes event order options rt = Returns mb rt1 ∧ rt' = tl rt1 ∧
    r = report ++ mismatchEntries event (expectedDigest (EventType_of event) mb)
                    (enumerate (hd [] rt1) (Digests event)).
Proof.
  unfold checkEventDigests, bind.
  destruct (determineMeasuredBytes event order options rt) as [mb rt1|]; [|done].
  unfold rangeDigests. intros [-> ->]%checkEventDigests_loop_returns. eauto.
Qed.

Lemma length_enumerate (ks : list AlgorithmId) (m : DigestMap) :
  length (enumerate ks m) = size m.
Proof. by rewrite enumerate_perm, length_map_to_list. Qed.

Lemma length_mismatchEntry (event : Event) (f : AlgorithmId → option (list byte))
    (p : AlgorithmId * Digest) :
  (length (mismatchEntry event f p) ≤ 1)%nat.
Proof.
  unfold mismatchEntry. destruct (f p.1); [case_decide|]; simpl; lia.
Qed.

Lemma length_mismatchEntries (event : Event) (f : AlgorithmId → option (list byte))
    (l : list (AlgorithmId * Digest)) :
  (length (mismatchEntries event f l) ≤ length l)%nat.
Proof.
  induction l as [|p l IH]; [done|].
  rewrite mismatchEntries_cons, length_app. simpl.
  pose proof (length_mismatchEntry event f p). lia.
Qed.

Lemma mismatchEntries_rank (event : Event) (f : AlgorithmId → option (list byte))
    (l : list (AlgorithmId * Digest)) :
  entryRank <$> mismatchEntries event f l =
  replicate (length (mismatchEntries event f l)) 2%nat.
Proof.
  induction l as [|p l IH]; [done|].
  rewrite mismatchEntries_cons, fmap_app, length_app, replicate_add, IH. f_equal.
  unfold mismatchEntry. destruct (f p.1); [case_decide|]; done.
Qed.

Lemma mismatchEntries_event (event : Event) (f : AlgorithmId → option (list byte))
    (l : list (AlgorithmId * Digest)) :
  Forall (λ e, entryEvent e = event) (mismatchEntries event f l).
Proof.
  apply Forall_forall. intros e (alg & d & x & _ & _ & _ & ->)%mismatchEntries_kind. done.
Qed.

(** X9: every entry the cross-check adds to the report is a genuine
    mismatch: it is about an algorithm of the event's digest mapping whose
    recorded digest differs from the expected digest the entry carries; there
    is at most one entry per algorithm, hence at most as many entries as the
    event has digests. *)
Theorem checkEventDigests_genuine (event : Event) (order : ByteOrder)
    (options : LogCheckOptions) (report r : LogCheckReport) (rt rt' : Runtime) :
  checkEventDigests event order options report rt = Returns r rt' →
  ∃ es,
    r = report ++ es ∧
    (∀ e, e ∈ es → ∃ alg d x,
       e = UnexpectedDigestValueReportEntry event alg (Some x) ∧
       Digests event !! alg = Some d ∧ slice_bytes d ≠ x) ∧
    (∀ alg, (length (entriesAbout alg es) ≤ 1)%nat) ∧
    (length es ≤ size (Digests event))%nat.
Proof.
  intros (mb & rt1 & _ & _ & ->)%checkEventDigests_returns.
  eexists. split; [done|]. split; [|split].
  - intros e (alg & d & x & Hin & _ & Hne & ->)%mismatchEntries_kind.
    apply elem_of_enumerate in Hin. eauto 10.
  - intros alg. rewrite entriesAbout_mismatchEntries. unfold mismatchEntriesAbout.
    destruct (Digests event !! alg); [apply length_mismatchEntry|simpl; lia].
  - rewrite <- (length_enumerate (hd [] rt1)). apply length_mismatchEntries.
Qed.

Lemma length_invalidEventDataEntries (event : Event) (err : option error) :
  (length (invalidEventDataEntries event err) ≤ 1)%nat.
Proof. destruct err; simpl; lia. Qed.

Lemma checkEvent_returns (event : Event) (dataErr : option error) (spec : Spec)
    (order : ByteOrder) (options : LogCheckOptions) (report r : LogCheckReport)
    (rt rt' : Runtime) :
  checkEvent event dataErr spec order options report rt = Returns r rt' →
  ∃ err es,
    r = report ++ placementEntries event spec ++ invalidEventDataEntries event dataErr ++
        invalidEventDataEntries event err ++ es ∧
    Forall (λ e, entryEvent e = event) es ∧
    entryRank <$> es = replicate (length es) 2%nat ∧
    (length es ≤ size (Digests event))%nat.
Proof.
  rewrite checkEvent_entries.
  destruct (checkEventData event order rt) as [err rt1|]; [|done].
  destruct (checkEventDigests event order options [] rt1) as [es rt2|] eqn:Hd; [|done].
  simpl. intros [= <- <-].
  apply checkEventDigests_returns in Hd as (mb & rt3 & _ & _ & ->). simpl.
  exists err. eexists. split; [done|]. split; [|split].
  - apply mismatchEntries_event.
  - apply mismatchEntries_rank.
  - rewrite <- (length_enumerate (hd [] rt3)). apply length_mismatchEntries.
Qed.

Lemma checkEvent_appends (event : Event) (dataErr : option error) (spec : Spec)
    (order : ByteOrder) (options : LogCheckOptions) (report r : LogCheckReport)
    (rt rt' : Runtime) :
  checkEvent event dataErr spec order options report rt = Returns r rt' →
  ∃ es, r = report ++ es ∧ Forall (λ e, entryEvent e = event) es.
Proof.
  intros (err & es & -> & Hev & _)%checkEvent_returns.
  eexists. split; [done|].
  rewrite !Forall_app. repeat split; [| | |done].
  - unfold placementEntries. destruct (isExpectedEventTypeForIndex _ _ _); by repeat constructor.
  - destruct dataErr; by repeat constructor.
  - destruct err; by repeat constructor.
Qed.

(** X10: the entries the per-event check adds to the report all refer to the
    event; they are, in this order, at most one UnexpectedEventType entry,
    at most two InvalidEventData entries (at most one when the event came
    without decode error) and at most one UnexpectedDigestValue entry per
    digest of the event. *)
Theorem checkEvent_entries_shape (event : Event) (dataErr : option error) (spec : Spec)
    (order : ByteOrder) (options : LogCheckOptions) (report r : LogCheckReport)
    (rt rt' : Runtime) :
  checkEvent event dataErr spec order options report rt = Returns r rt' →
  ∃ es a b c,
    r = report ++ es ∧
    Forall (λ e, entryEvent e = event) es ∧
    entryRank <$> es = replicate a 0%nat ++ replicate b 1%nat ++ replicate c 2%nat ∧
    (a ≤ 1)%nat ∧ (b ≤ 2)%nat ∧ (dataErr = None → (b ≤ 1)%nat) ∧
    (c ≤ size (Digests event))%nat.
Proof.
  intros (err & es & -> & Hev & Hrank & Hlen)%checkEvent_returns.
  eexists.
  exists (length (placementEntries event spec)),
         (length (invalidEventDataEntries event dataErr) +
          length (invalidEventDataEntries event err))%nat,
         (length es).
  split; [done|]. split; [|split; [|split; [|split; [|split]]]].
  - rewrite !Forall_app. repeat split; [| | |done].
    + unfold placementEntries. destruct (isExpectedEventTypeForIndex _ _ _); by repeat constructor.
    + destruct dataErr; by repeat constructor.
    + destruct err; by repeat constructor.
  - rewrite !fmap_app, Hrank, replicate_add, <- !app_assoc. f_equal; [|f_equal; [|f_equal]].
    + unfold placementEntries. by destruct (isExpectedEventTypeForIndex _ _ _).
    + by destruct dataErr.
    + by destruct err.
  - unfold placementEntries. destruct (isExpectedEventTypeForIndex _ _ _); simpl; lia.
  - pose proof (length_invalidEventDataEntries event dataErr).
    pose proof (length_invalidEventDataEntries event err). lia.
  - intros ->. pose proof (length_invalidEventDataEntries event err). simpl. lia.
  - done.
Qed.

(** *** The report of a log *)

Lemma checkLog_loop_grouped pulls (spec : Spec) (order : ByteOrder)
    (options : LogCheckOptions) (report r : LogCheckReport) (err : option error)
    (rt rt' : Runtime) :
  checkLog_loop pulls spec order options report rt = Returns (Some r, err) rt' →
  ∃ parts,
    r = report ++ concat parts ∧
    Forall2 (λ event part, Forall (λ e, entryEvent e = event) part)
      (pulledEvents pulls) parts.
Proof.
  revert report rt.
  induction pulls as [|[[event|] e] pulls IH]; intros report rt; simpl.
  - intros [= <- <- <-]. exists []. split; [by rewrite app_nil_r|constructor].
  - unfold bind.
    destruct (checkEvent event e spec order options report rt) as [r1 rt1|] eqn:He;
      [|done].
    apply checkEvent_appends in He as (es & -> & Hev).
    intros (parts & -> & Hparts)%IH.
    exists (es :: parts). split; [by rewrite <- app_assoc|by constructor].
  - case_decide; intros [= <- <- <-].
    exists []. split; [by rewrite app_nil_r|constructor].
Qed.

(** X11: the report the driver returns lists the entries in log order: it
    is the concatenation, over the events the stream yielded before its
    end, of the entries of each event, which all refer to that event. *)
Theorem checkLog_report_grouped (log : Log) (options : LogCheckOptions)
    (report : LogCheckReport) (err : option error) (rt rt' : Runtime) :
  checkLog log options rt = Returns (Some report, err) rt' →
  ∃ parts,
    report = concat parts ∧
    Forall2 (λ event part, Forall (λ e, entryEvent e = event) part)
      (pulledEvents (stream log)) parts.
Proof. intros H. by apply checkLog_loop_grouped in H. Qed.

(** *** The order of enumeration outside Separator events *)

Lemma mismatchEntries_Permutation (event : Event) (f : AlgorithmId → option (list byte))
    (l1 l2 : list (AlgorithmId * Digest)) :
  l1 ≡ₚ l2 → mismatchEntries event f l1 ≡ₚ mismatchEntries event f l2.
Proof. intros Hp. unfold mismatchEntries. by rewrite Hp. Qed.

Lemma knownAlgorithms_or_not (event : Event) :
  knownAlgorithms event ∨
  ∃ alg d, Digests event !! alg = Some d ∧ isKnownAlgorithm alg = false.
Proof.
  destruct (decide (map_Forall (λ alg _, isKnownAlgorithm alg = true) (Digests event)))
    as [Hk|Hk]; [by left|right].
  apply map_not_Forall in Hk; [|apply _].
  destruct Hk as (alg & d & Hlk & Hn). exists alg, d. split; [done|].
  by destruct (isKnownAlgorithm alg).
Qed.

Lemma checkEventDigests_sameEntries (event : Event) (order : ByteOrder)
    (options : LogCheckOptions) (report : LogCheckReport) (rt1 rt2 : Runtime) :
  EventType_of event ≠ EventTypeSeparator →
  sameEntries (checkEventDigests event order options report rt1)
              (checkEventDigests event order options report rt2).
Proof.
  intros Ht.
  destruct (determineMeasuredBytes_no_range event order options Ht) as [mb Hmb].
  destruct (decide (EventType_of event = EventTypeNoAction)) as [Hna|Hna];
    [|destruct mb as [m|]; [destruct (knownAlgorithms_or_not event) as [Hk|Hk]|]].
  - rewrite !(checkEventDigests_resolved _ _ _ _ _ _ _ (Hmb _)) by auto. simpl.
    apply Permutation_app_head, mismatchEntries_Permutation.
    by rewrite !enumerate_perm.
  - rewrite !(checkEventDigests_resolved _ _ _ _ _ _ _ (Hmb _)) by auto. simpl.
    apply Permutation_app_head, mismatchEntries_Permutation.
    by rewrite !enumerate_perm.
  - destruct Hk as (alg & d & Hlk & Hk).
    unfold checkEventDigests, bind. rewrite !Hmb. unfold rangeDigests.
    rewrite !checkEventDigests_loop_unknown; try done;
      exists (alg, d); (split; [by apply elem_of_enumerate|done]).
  - rewrite !(checkEventDigests_resolved _ _ _ _ _ _ _ (Hmb _)) by auto. simpl.
    apply Permutation_app_head, mismatchEntries_Permutation.
    by rewrite !enumerate_perm.
Qed.

(** X12: on an event that is not a Separator the order in which the runtime
    enumerates the digest mapping changes nothing but the order of the
    entries: two runs of the per-event check both panic with the same
    message or return reports that are permutations of each other. *)
Theorem checkEvent_sameEntries (event : Event) (dataErr : option error) (spec : Spec)
    (order : ByteOrder) (options : LogCheckOptions) (report : LogCheckReport)
    (rt1 rt2 : Runtime) :
  EventType_of event ≠ EventTypeSeparator →
  sameEntries (checkEvent event dataErr spec order options report rt1)
              (checkEvent event dataErr spec order options report rt2).
Proof.
  intros Ht. unfold checkEvent, bind.
  destruct (checkEventData_pure event order Ht) as [err Herr]. rewrite !Herr.
  by apply checkEventDigests_sameEntries.
Qed.

(** *** Events that pass *)

Lemma mismatchEntries_nil (event : Event) (f : AlgorithmId → option (list byte))
    (l : list (AlgorithmId * Digest)) :
  mismatchEntries event f l = [] ↔
  ∀ alg d x, (alg, d) ∈ l → f alg = Some x → slice_bytes d = x.
Proof.
  induction l as [|[alg d] l IH].
  - split; [|done]. intros _ alg d x Hin. by apply not_elem_of_nil in Hin.
  - rewrite mismatchEntries_cons, app_nil, IH. unfold mismatchEntry. simpl. split.
    + intros [Hhd Htl] a y x [[= -> ->]|Hin]%elem_of_cons Hf; [|by eapply Htl].
      rewrite Hf in Hhd. by case_decide.
    + intros Hall. split.
      * destruct (f alg) as [x|] eqn:Hf; [|done].
        rewrite decide_True; [done|]. apply (Hall alg d x); [left|done].
      * intros a y x Hin. apply Hall. by right.
Qed.

(** X13: an event that is not a Separator, on which the cross-check cannot
    panic, leaves the report as it was exactly when its placement is valid,
    it came without decode error, its payload is well formed for its type,
    and every recorded digest for which a digest is expected equals it. *)
Theorem checkEvent_clean (event : Event) (dataErr : option error) (spec : Spec)
    (order : ByteOrder) (options : LogCheckOptions) (report : LogCheckReport)
    (rt : Runtime) (mb : slice) :
  EventType_of event ≠ EventTypeSeparator →
  determineMeasuredBytes event order options rt = Returns mb rt →
  EventType_of event = EventTypeNoAction ∨ mb = None ∨ knownAlgorithms event →
  (∃ rt', checkEvent event dataErr spec order options report rt = Returns report rt') ↔
  isExpectedEventTypeForIndex (EventType_of event) (PCRIndex_of event) spec = true ∧
  dataErr = None ∧ payloadWellFormed event ∧
  ∀ alg d x, Digests event !! alg = Some d →
    expectedDigest (EventType_of event) mb alg = Some x → slice_bytes d = x.
Proof.
  intros Ht Hmb Hsafe.
  destruct (checkEventData_wellFormed event order Ht) as (err & Herr & Hwf).
  rewrite checkEvent_entries, Herr.
  erewrite checkEventDigests_resolved by eauto. simpl.
  rewrite <- Hwf. unfold placementEntries. split.
  - intros (rt' & [= Heq _]).
    rewrite <- (app_nil_r report) in Heq at 2. apply app_inv_head in Heq.
    apply app_nil in Heq as [Hp Heq]. apply app_nil in Heq as [Hd Heq].
    apply app_nil in Heq as [He Hm].
    split; [by destruct (isExpectedEventTypeForIndex _ _ _)|].
    split; [by destruct dataErr|]. split; [by destruct err|].
    intros alg d x Hlk. rewrite mismatchEntries_nil in Hm.
    apply Hm. by apply elem_of_enumerate.
  - intros (-> & -> & -> & Hm). eexists. f_equal. simpl.
    assert (mismatchEntries event (expectedDigest (EventType_of event) mb)
              (enumerate (hd [] rt) (Digests event)) = []) as ->; [|by rewrite app_nil_r].
    apply mismatchEntries_nil.
    intros alg d x Hin%elem_of_enumerate. by apply Hm.
Qed.

(** *** The BootOrder stringer *)

Lemma chars_app (a b : string) : chars (a +:+ b) = chars a ++ chars b.
Proof. unfold chars. induction a as [|c a IH]; simpl; [done|]. by rewrite IH. Qed.

Lemma chars_inj (a b : string) : chars a = chars b → a = b.
Proof.
  unfold chars. intros H.
  rewrite <- (String.string_of_list_ascii_of_string a),
          <- (String.string_of_list_ascii_of_string b). by rewrite H.
Qed.

Lemma chars_fmt_04x (v : N) :
  chars (fmt_04x v) =
  [hexDigit (v / 4096 mod 16); hexDigit (v / 256 mod 16);
   hexDigit (v / 16 mod 16); hexDigit (v mod 16)].
Proof. unfold chars, fmt_04x. apply String.list_ascii_of_string_of_list_ascii. Qed.

Lemma unhexDigit_hexDigit (n : N) : n < 16 → unhexDigit (hexDigit n) = n.
Proof.
  intros Hn.
  assert (n = 0 ∨ n = 1 ∨ n = 2 ∨ n = 3 ∨ n = 4 ∨ n = 5 ∨ n = 6 ∨ n = 7 ∨
          n = 8 ∨ n = 9 ∨ n = 10 ∨ n = 11 ∨ n = 12 ∨ n = 13 ∨ n = 14 ∨ n = 15)
    as Hcases by lia.
  repeat (destruct Hcases as [->|Hcases]; [by vm_compute|]).
  subst. by vm_compute.
Qed.

Lemma hex_decompose (v : N) :
  v < 65536 →
  v = 4096 * (v / 4096 mod 16) + 256 * (v / 256 mod 16) + 16 * (v / 16 mod 16) + v mod 16.
Proof.
  intros Hv.
  pose proof (N.div_mod v 16 ltac:(lia)) as H0.
  pose proof (N.div_mod (v / 16) 16 ltac:(lia)) as H1.
  pose proof (N.div_mod (v / 256) 16 ltac:(lia)) as H2.
  rewrite N.Div0.div_div in H1, H2.
  change (16 * 16) with 256 in H1. change (256 * 16) with 4096 in H2.
  assert (v / 4096 < 16) as H3 by (apply N.Div0.div_lt_upper_bound; lia).
  rewrite (N.mod_small (v / 4096) 16) by done.
  lia.
Qed.

Lemma fmt_04x_inj (v w : N) :
  v < 65536 → w < 65536 → fmt_04x v = fmt_04x w → v = w.
Proof.
  intros Hv Hw Heq. apply (f_equal chars) in Heq. rewrite !chars_fmt_04x in Heq.
  injection Heq as H3 H2 H1 H0.
  apply (f_equal unhexDigit) in H3, H2, H1, H0.
  rewrite !unhexDigit_hexDigit in H3, H2, H1, H0 by (apply N.mod_lt; lia).
  rewrite (hex_decompose v Hv), (hex_decompose w Hw). by rewrite H3, H2, H1, H0.
Qed.

Lemma Uint16_bound (a b : byte) : Uint16 LittleEndian [a; b] < 65536.
Proof.
  unfold Uint16. simpl.
  pose proof (Byte.to_N_bounded a). pose proof (Byte.to_N_bounded b).
  change (2 ^ 8) with 256. lia.
Qed.

Lemma byte_to_N_inj (a b : byte) : Byte.to_N a = Byte.to_N b → a = b.
Proof.
  intros H. pose proof (Byte.of_to_N a) as Ha. rewrite H, Byte.of_to_N in Ha.
  by injection Ha.
Qed.

Lemma Uint16_inj (a b a' b' : byte) :
  Uint16 LittleEndian [a; b] = Uint16 LittleEndian [a'; b'] → a = a' ∧ b = b'.
Proof.
  unfold Uint16. simpl. change (2 ^ 8) with 256.
  pose proof (Byte.to_N_bounded a). pose proof (Byte.to_N_bounded b).
  pose proof (Byte.to_N_bounded a'). pose proof (Byte.to_N_bounded b').
  intros Heq. split; apply byte_to_N_inj; lia.
Qed.

Lemma bootNumbers_bound (data : list byte) :
  Forall (λ v, v < 65536) (bootNumbers data).
Proof.
  induction data as [data IH] using (induction_ltof1 _ (@length byte)).
  unfold ltof in IH.
  destruct data as [|a [|b rest]]; simpl; try by constructor.
  constructor; [apply Uint16_bound|]. apply IH. simpl. lia.
Qed.

Lemma even_length_split (data : list byte) :
  (length data `mod` 2 = 0)%nat →
  data = [] ∨ ∃ a b rest, data = a :: b :: rest ∧ (length rest `mod` 2 = 0)%nat.
Proof.
  destruct data as [|a [|b rest]]; simpl length; intros Hm; [by left|done|].
  right. exists a, b, rest. split; [done|].
  replace (S (S (length rest))) with (length rest + 1 * 2)%nat in Hm by lia.
  by rewrite Nat.Div0.mod_add in Hm.
Qed.

Lemma bootOrder_loop_even (data : list byte) (order : list string) :
  (length data `mod` 2 = 0)%nat →
  bootOrder_loop data order = Some (order ++ (fmt_04x <$> bootNumbers data)).
Proof.
  revert order.
  induction data as [data IH] using (induction_ltof1 _ (@length byte)).
  unfold ltof in IH. intros order Hm.
  destruct (even_length_split data Hm) as [->|(a & b & rest & -> & Hrest)].
  - simpl. by rewrite app_nil_r.
  - cbn [bootOrder_loop bootNumbers fmap list_fmap]. rewrite IH by (simpl; lia || done).
    by rewrite <- app_assoc.
Qed.

Lemma bootNumbers_inj (d1 d2 : list byte) :
  (length d1 `mod` 2 = 0)%nat → (length d2 `mod` 2 = 0)%nat →
  bootNumbers d1 = bootNumbers d2 → d1 = d2.
Proof.
  revert d2.
  induction d1 as [d1 IH] using (induction_ltof1 _ (@length byte)).
  unfold ltof in IH. intros d2 H1 H2 Heq.
  destruct (even_length_split d1 H1) as [->|(a & b & r1 & -> & Hr1)];
    destruct (even_length_split d2 H2) as [->|(a' & b' & r2 & -> & Hr2)];
    try done.
  cbn [bootNumbers] in Heq. injection Heq as Hhd Htl.
  apply Uint16_inj in Hhd as [-> ->].
  f_equal. f_equal. apply IH; try done. simpl. lia.
Qed.

Lemma chars_Join_cons (e : string) (es : list string) :
  chars (Join (e :: es) ",") =
  chars e ++ match es with
             | [] => []
             | _ => chars "," ++ chars (Join es ",")
             end.
Proof.
  destruct es as [|e' es]; cbn [Join]; [by rewrite app_nil_r|].
  by rewrite !chars_app.
Qed.

Lemma Join_fmt_04x_inj (vs ws : list N) :
  Forall (λ v, v < 65536) vs → Forall (λ v, v < 65536) ws →
  Join (fmt_04x <$> vs) "," = Join (fmt_04x <$> ws) "," → vs = ws.
Proof.
  intros Hvs. revert ws.
  induction Hvs as [|v vs Hv Hvs IH]; intros ws Hws Heq;
    destruct Hws as [|w ws Hw Hws]; [done| | |].
  - apply (f_equal chars) in Heq. rewrite fmap_cons, chars_Join_cons in Heq.
    rewrite chars_fmt_04x in Heq. done.
  - apply (f_equal chars) in Heq. rewrite fmap_cons, chars_Join_cons in Heq.
    rewrite chars_fmt_04x in Heq. done.
  - apply (f_equal chars) in Heq. rewrite !fmap_cons, !chars_Join_cons in Heq.
    apply app_inj_1 in Heq as [Hhd Htl]; [|by rewrite !chars_fmt_04x].
    apply chars_inj, fmt_04x_inj in Hhd; [subst w|done..]. f_equal.
    destruct vs as [|v' vs], ws as [|w' ws]; try done.
    apply IH; [done|]. apply chars_inj.
    rewrite !fmap_cons in Htl. rewrite !fmap_cons.
    by apply app_inv_head in Htl.
Qed.

Lemma length_bootNumbers (data : list byte) :
  (length data `mod` 2 = 0)%nat →
  length (bootNumbers data) = (length data / 2)%nat.
Proof.
  induction data as [data IH] using (induction_ltof1 _ (@length byte)).
  unfold ltof in IH. intros Hm.
  destruct (even_length_split data Hm) as [->|(a & b & rest & -> & Hrest)]; [done|].
  cbn [bootNumbers length]. rewrite IH by (simpl; lia || done).
  replace (S (S (length rest))) with (length rest + 1 * 2)%nat by lia.
  rewrite Nat.div_add by lia. lia.
Qed.

(** X14: the BootOrder stringer never panics: a payload of odd length gives
    the message that names the length, and a payload of even length gives
    "BootOrder: " followed by one four-digit hexadecimal number for every
    two bytes, in order and separated by commas, so the two-byte read of the
    loop is never out of range. *)
Theorem bootOrderVariableStringer_String_total (data : list byte) :
  ∃ s,
    bootOrderVariableStringer_String data = Some s ∧
    ((length data `mod` 2 ≠ 0)%nat →
     s = "Invalid BootOrder payload length (" +:+ fmt_d (length data) +:+ " bytes)") ∧
    ((length data `mod` 2 = 0)%nat →
     s = "BootOrder: " +:+ Join (fmt_04x <$> bootNumbers data) "," ∧
     length (bootNumbers data) = (length data / 2)%nat).
Proof.
  unfold bootOrderVariableStringer_String.
  destruct (decide (length data `mod` 2 ≠ 0)%nat) as [Hodd|Heven].
  - eexists. split; [done|]. split; [done|]. intros. done.
  - assert (length data `mod` 2 = 0)%nat as Hm by lia.
    rewrite bootOrder_loop_even by done. simpl app.
    eexists. split; [done|]. split; [done|]. intros _.
    split; [done|]. by apply length_bootNumbers.
Qed.

(** X15: the BootOrder stringer loses nothing of a payload of even length:
    a payload that gives the same string as a payload of even length is that
    payload. *)
Theorem bootOrderVariableStringer_String_inj (d1 d2 : list byte) :
  (length d1 `mod` 2 = 0)%nat →
  bootOrderVariableStringer_String d1 = bootOrderVariableStringer_String d2 →
  d1 = d2.
Proof.
  intros H1. unfold bootOrderVariableStringer_String.
  rewrite decide_False by lia. rewrite bootOrder_loop_even by done. simpl app.
  destruct (decide (length d2 `mod` 2 ≠ 0)%nat) as [Hodd|Heven].
  - simpl. intros [=].
  - assert (length d2 `mod` 2 = 0)%nat as H2 by lia.
    rewrite bootOrder_loop_even by done. simpl app. simpl.
    intros [= Heq]. apply bootNumbers_inj; [done..|].
    apply Join_fmt_04x_inj; [apply bootNumbers_bound..|done].
Qed.

(** *** The signature-database stringer *)

Lemma intWrap_small (z : Z) : (- 2 ^ 63 ≤ z < 2 ^ 63)%Z → intWrap z = z.
Proof. intros Hz. unfold intWrap. rewrite Z.mod_small; lia. Qed.

Lemma countSignatures_lookup (counts : gmap GUID Z) (l : SignatureList) (t : GUID) :
  default 0%Z (countSignatures counts l !! t) =
  if decide (t = SignatureList_Type l)
  then intWrap (default 0%Z (counts !! t) + len (Signatures l))
  else default 0%Z (counts !! t).
Proof.
  unfold countSignatures. destruct (decide (t = SignatureList_Type l)) as [->|Hne].
  - rewrite lookup_insert_eq. simpl.
    destruct (counts !! SignatureList_Type l) eqn:Hc; [by rewrite Hc|].
    by rewrite lookup_insert_eq.
  - rewrite lookup_insert_ne by done.
    destruct (counts !! SignatureList_Type l) eqn:Hc; [done|].
    by rewrite lookup_insert_ne.
Qed.

Lemma signaturesOfType_cons (t : GUID) (l : SignatureList) (db : list SignatureList) :
  signaturesOfType t (l :: db) =
  ((if decide (SignatureList_Type l = t) then len (Signatures l) else 0) +
   signaturesOfType t db)%Z.
Proof.
  unfold signaturesOfType. rewrite filter_cons. by case_decide.
Qed.

Lemma signaturesOfType_nonneg (t : GUID) (db : list SignatureList) :
  (0 ≤ signaturesOfType t db)%Z.
Proof.
  induction db as [|l db IH]; [done|].
  rewrite signaturesOfType_cons. unfold len. case_decide; lia.
Qed.

Lemma foldl_countSignatures (db : list SignatureList) (counts : gmap GUID Z) :
  (∀ t, 0 ≤ default 0 (counts !! t))%Z →
  (∀ t, default 0 (counts !! t) + signaturesOfType t db < 2 ^ 63)%Z →
  ∀ t, default 0%Z (foldl countSignatures counts db !! t) =
       (default 0 (counts !! t) + signaturesOfType t db)%Z.
Proof.
  revert counts. induction db as [|l db IH]; intros counts Hpos Hbound t.
  - unfold signaturesOfType. simpl. lia.
  - simpl.
    assert (∀ t, default 0%Z (countSignatures counts l !! t) =
      (default 0 (counts !! t) +
       if decide (SignatureList_Type l = t) then len (Signatures l) else 0)%Z)
      as Hstep.
    { intros t'. rewrite countSignatures_lookup.
      specialize (Hpos t'). specialize (Hbound t').
      rewrite signaturesOfType_cons in Hbound.
      pose proof (signaturesOfType_nonneg t' db).
      destruct (decide (t' = SignatureList_Type l)) as [->|Hne].
      - rewrite decide_True in * by done.
        apply intWrap_small. unfold len in *. lia.
      - rewrite decide_False by done. lia. }
    rewrite IH.
    + rewrite Hstep, signaturesOfType_cons. lia.
    + intros t'. rewrite Hstep. specialize (Hpos t'). unfold len. case_decide; lia.
    + intros t'. rewrite Hstep. specialize (Hbound t').
      rewrite signaturesOfType_cons in Hbound. lia.
Qed.

Lemma signaturesOfType_Permutation (t : GUID) (db1 db2 : list SignatureList) :
  db1 ≡ₚ db2 → signaturesOfType t db1 = signaturesOfType t db2.
Proof.
  induction 1 as [|l db1 db2 _ IH|l1 l2 db|db1 db2 db3 _ IH1 _ IH2].
  - done.
  - by rewrite !signaturesOfType_cons, IH.
  - rewrite !signaturesOfType_cons. lia.
  - by rewrite IH1.
Qed.

Lemma append_empty_r (s : string) : s +:+ EmptyString = s.
Proof.
  induction s as [|c s IH]; [done|].
  change (String c (s +:+ EmptyString) = String c s). by f_equal.
Qed.

Lemma summaryPart_append (str label : string) (n : Z) :
  (0 ≤ n)%Z →
  (if (0 <? n)%Z then str +:+ label +:+ fmt_int n else str) =
  str +:+ summaryPart label n.
Proof.
  intros Hn. unfold summaryPart, fmt_int.
  destruct (0 <? n)%Z eqn:Hpos; [|symmetry; apply append_empty_r].
  by replace (n <? 0)%Z with false by (symmetry; apply Z.ltb_ge; lia).
Qed.

(** X16: for a signature database that parses and holds fewer than 2^63
    signatures of each type, the summary of the stringer is the descriptor
    and a colon followed by the number of X.509 signatures and the number of
    SHA-256 signatures, each summed over all the lists of its type and left
    out when it is zero; so the summary does not depend on the order of the
    lists in the database. *)
Theorem dbVariableStringer_String_summary (CertX509Guid CertSHA256Guid : GUID)
    (ReadSignatureDatabase : list byte → list SignatureList + error)
    (SignatureDatabase_String : list SignatureList → string)
    (desc : string) (data : list byte) (db : list SignatureList) :
  ReadSignatureDatabase data = inl db →
  (∀ t, signaturesOfType t db < 2 ^ 63)%Z →
  dbVariableStringer_String CertX509Guid CertSHA256Guid ReadSignatureDatabase
    SignatureDatabase_String desc data false =
    ((desc +:+ ":") +:+ summaryPart " entries(x509)=" (signaturesOfType CertX509Guid db))
      +:+ summaryPart " entries(sha256)=" (signaturesOfType CertSHA256Guid db) ∧
  ∀ data' db', ReadSignatureDatabase data' = inl db' → db ≡ₚ db' →
    dbVariableStringer_String CertX509Guid CertSHA256Guid ReadSignatureDatabase
      SignatureDatabase_String desc data' false =
    dbVariableStringer_String CertX509Guid CertSHA256Guid ReadSignatureDatabase
      SignatureDatabase_String desc data false.
Proof.
  intros Hdb Hbound.
  assert (∀ data0 db0, ReadSignatureDatabase data0 = inl db0 →
    (∀ t, signaturesOfType t db0 < 2 ^ 63)%Z →
    dbVariableStringer_String CertX509Guid CertSHA256Guid ReadSignatureDatabase
      SignatureDatabase_String desc data0 false =
    ((desc +:+ ":") +:+ summaryPart " entries(x509)=" (signaturesOfType CertX509Guid db0))
      +:+ summaryPart " entries(sha256)=" (signaturesOfType CertSHA256Guid db0)) as Hsum.
  { intros data0 db0 H0 Hb0. unfold dbVariableStringer_String. rewrite H0.
    assert (∀ t, default 0%Z (foldl countSignatures ∅ db0 !! t) =
                 signaturesOfType t db0) as Hcount.
    { intros t. rewrite foldl_countSignatures.
      - by rewrite lookup_empty.
      - intros t'. by rewrite lookup_empty.
      - intros t'. rewrite lookup_empty. simpl. apply Hb0. }
    rewrite !Hcount.
    rewrite (summaryPart_append (desc +:+ ":")) by apply signaturesOfType_nonneg.
    by rewrite summaryPart_append by apply signaturesOfType_nonneg. }
  split; [by apply Hsum|].
  intros data' db' Hdb' Hperm.
  rewrite (Hsum _ _ Hdb Hbound), (Hsum _ _ Hdb').
  - by rewrite !(signaturesOfType_Permutation _ _ _ Hperm).
  - intros t. rewrite <- (signaturesOfType_Permutation _ _ _ Hperm). apply Hbound.
Qed.

End Properties.

(** *** The byte order of the machine *)

Lemma checkEventData_withNativeEndian `{Ext : Externals} (machine : ByteOrder)
    (event : Event) (order : ByteOrder) (rt : Runtime) :
  @checkEventData (withNativeEndian machine Ext) event order rt =
  checkEventData event order rt.
Proof.
  destruct (decide (EventType_of event = EventTypeSeparator)) as [Ht|Ht].
  - rewrite (@checkEventData_separator (withNativeEndian machine Ext)) by done.
    by rewrite checkEventData_separator.
  - unfold checkEventData. by destruct (EventType_of event).
Qed.

(** X17: the per-event check gives the same result on a little-endian and
    on a big-endian machine, although the structural validator reads the
    payload of a Separator through a pointer cast in the machine's byte
    order. *)
Theorem checkEvent_any_machine `{Ext : Externals} (machine : ByteOrder) (event : Event)
    (dataErr : option error) (spec : Spec) (order : ByteOrder)
    (options : LogCheckOptions) (report : LogCheckReport) (rt : Runtime) :
  @checkEvent (withNativeEndian machine Ext) event dataErr spec order options report rt =
  checkEvent event dataErr spec order options report rt.
Proof.
  unfold checkEvent, bind. rewrite checkEventData_withNativeEndian. reflexivity.
Qed.

(** * The theorems at concrete inputs *)

(** Deciding the condition on the algorithms of a concrete event. *)
Lemma knownAlgorithms_decide (event : Event) :
  bool_decide (map_Forall (λ alg _, isKnownAlgorithm alg = true) (Digests event)) = true →
  knownAlgorithms event.
Proof. intros H. exact (bool_decide_unpack _ (Is_true_true_2 _ H)). Defined.

Lemma checkEventDigests_NoAction_witness :
  EventType_of noActionOneBad = EventTypeNoAction ∧
  ∃ es,
    @checkEventDigests tagExternals noActionOneBad LittleEndian defaultOptions [] [] =
      Returns ([] ++ es) (tl []) ∧
    (∀ e, e ∈ es → ∃ alg n, digestSize alg = Some n ∧
        e = UnexpectedDigestValueReportEntry noActionOneBad alg (Some (allZeroDigest n))) ∧
    (∀ alg, entriesAbout alg es = zeroDigestEntriesAbout noActionOneBad alg).
Proof.
  split; [reflexivity|].
  apply (@checkEventDigests_NoAction tagExternals noActionOneBad). reflexivity.
Defined.

Lemma isSeparatorEventError_classification_witness :
  EventType_of separatorError = EventTypeSeparator ∧
  @isSeparatorEventError tagExternals separatorError LittleEndian [] = Returns true [] ∧
  @checkEventData tagExternals separatorError LittleEndian [] = Returns None [] ∧
  @determineMeasuredBytes tagExternals separatorError LittleEndian defaultOptions [] =
    Returns (Some (PutUint32 LittleEndian separatorEventErrorValue)) [].
Proof.
  assert (@isSeparatorEventError tagExternals separatorError LittleEndian [] =
          Returns true []) as Herr by (vm_compute; reflexivity).
  destruct (@isSeparatorEventError_classification tagExternals separatorError
              LittleEndian [] eq_refl) as [_ Hexempt].
  destruct (Hexempt [] Herr) as [Hdata Hmeasured].
  split; [reflexivity|]. split; [exact Herr|]. split; [exact Hdata|].
  exact (Hmeasured _ defaultOptions eq_refl).
Defined.

Lemma separatorNormal_digests :
  ∀ alg d, Digests separatorNormal !! alg = Some d →
    isKnownAlgorithm alg = true ∧
    slice_bytes d = @digestOf tagExternals alg (PutUint32 LittleEndian 0) ∧
    @digestOf tagExternals alg (PutUint32 LittleEndian 0) ≠
      @digestOf tagExternals alg (PutUint32 LittleEndian separatorEventErrorValue).
Proof.
  refine (bool_decide_unpack (map_Forall (λ alg d, _ ∧ _ ∧ _) _) _).
  vm_compute. exact I.
Defined.

Lemma checkEventData_Separator_normal_witness :
  (EventType_of separatorNormal = EventTypeSeparator ∧
   @isSeparatorEventError tagExternals separatorNormal LittleEndian [] = Returns false [] ∧
   @checkEventData tagExternals separatorNormal LittleEndian [] = Returns None [] ∧
   ∃ rt, @checkEvent tagExternals separatorNormal None 2 LittleEndian defaultOptions [] [] =
           Returns [] rt) ∧
  (EventType_of separatorNoDigests = EventTypeSeparator ∧
   @isSeparatorEventError tagExternals separatorNoDigests LittleEndian [] =
     Returns false [] ∧
   @checkEventData tagExternals separatorNoDigests LittleEndian [] =
     Returns (Some (errorString "unexpected event data size of 2")) []).
Proof.
  assert (@isSeparatorEventError tagExternals separatorNormal LittleEndian [] =
          Returns false []) as Hn1 by (vm_compute; reflexivity).
  assert (@isSeparatorEventError tagExternals separatorNoDigests LittleEndian [] =
          Returns false []) as Hn2 by (vm_compute; reflexivity).
  destruct (@checkEventData_Separator_normal tagExternals separatorNormal LittleEndian
              [] [] eq_refl Hn1) as (Hd1 & _ & Hclean).
  destruct (@checkEventData_Separator_normal tagExternals separatorNoDigests LittleEndian
              [] [] eq_refl Hn2) as (Hd2 & _ & _).
  split.
  - split; [reflexivity|]. split; [exact Hn1|]. split; [exact Hd1|].
    exact (Hclean 2 defaultOptions [] _ eq_refl (or_introl eq_refl)
             separatorNormal_digests).
  - split; [reflexivity|]. split; [exact Hn2|]. exact Hd2.
Defined.

Lemma kernelCmdlineEvent_known : knownAlgorithms kernelCmdlineEvent.
Proof. apply knownAlgorithms_decide. vm_compute. reflexivity. Defined.

Lemma bootVariableEvent_known : knownAlgorithms bootVariableEvent.
Proof. apply knownAlgorithms_decide. vm_compute. reflexivity. Defined.

Lemma checkEventDigests_EFIVariable_witness :
  (Data bootVariableEvent =
     EFIVariableEventData (Some bootVariableRecord) [] "BootOrder" (Some bootVariableValue) ∧
   EventType_of bootVariableEvent ≠ EventTypeNoAction ∧
   knownAlgorithms bootVariableEvent) ∧
  @determineMeasuredBytes tagExternals bootVariableEvent LittleEndian
     {| EnableGrub := false; EfiVariableBootQuirk := false |} [] =
     Returns (Some bootVariableValue) [] ∧
  @determineMeasuredBytes tagExternals bootVariableEvent LittleEndian
     {| EnableGrub := false; EfiVariableBootQuirk := true |} [] =
     Returns (Some bootVariableRecord) [] ∧
  entriesAbout AlgorithmSha256
    (reportOf (@checkEventDigests tagExternals bootVariableEvent LittleEndian
       {| EnableGrub := false; EfiVariableBootQuirk := false |} [] [])) = [] ∧
  entriesAbout AlgorithmSha256
    (reportOf (@checkEventDigests tagExternals bootVariableEvent LittleEndian
       {| EnableGrub := false; EfiVariableBootQuirk := true |} [] [])) =
    [UnexpectedDigestValueReportEntry bootVariableEvent AlgorithmSha256
       (Some (@digestOf tagExternals AlgorithmSha256 bootVariableRecord))].
Proof.
  assert (EventType_of bootVariableEvent ≠ EventTypeNoAction) as Ht by discriminate.
  destruct (@checkEventDigests_EFIVariable tagExternals bootVariableEvent LittleEndian
              _ _ _ _ eq_refl) as (Hres & Hdigests).
  destruct (Hdigests Ht bootVariableEvent_known) as [_ Hboth].
  destruct (Hres {| EnableGrub := false; EfiVariableBootQuirk := false |} [])
    as [Hoff _].
  destruct (Hres {| EnableGrub := false; EfiVariableBootQuirk := true |} [])
    as [_ Hon].
  assert (@digestOf tagExternals AlgorithmSha256 bootVariableValue ≠
          @digestOf tagExternals AlgorithmSha256 bootVariableRecord) as Hne
    by discriminate.
  destruct (Hboth eq_refl bootVariableRecord bootVariableValue AlgorithmSha256
              (Some (x02 :: bootVariableValue)) false [] eq_refl eq_refl eq_refl Hne)
    as [_ Hpass].
  destruct (Hpass eq_refl) as [Hpass_off Hpass_on].
  split; [split; [reflexivity|split; [exact Ht|exact bootVariableEvent_known]]|].
  split; [exact (Hoff eq_refl eq_refl)|].
  split; [refine (Hon (or_intror eq_refl) (or_intror _)); discriminate|].
  split; [exact Hpass_off|exact Hpass_on].
Defined.

Lemma sampleLog_known :
  ∀ event err, (Some event, err) ∈ stream sampleLog → knownAlgorithms event.
Proof.
  intros event err Hin. simpl in Hin.
  repeat match goal with
         | H : _ ∈ _ :: _ |- _ => apply elem_of_cons in H as [H|H]
         | H : (Some _, _) = (_, _) |- _ => injection H as -> ->
         | H : _ ∈ [] |- _ => by apply not_elem_of_nil in H
         end; try discriminate;
    apply knownAlgorithms_decide; vm_compute; reflexivity.
Defined.

Lemma checkLog_driver_witness :
  @checkLog tagExternals sampleLog defaultOptions [] =
    match @checkEvents tagExternals
            [ (separatorNormal, None);
              (kernelCmdlineEvent, Some (errorString "short payload"));
              (separatorError, None) ] 2 LittleEndian defaultOptions [] [] with
    | Returns report rt' => Returns (Some report, None) rt'
    | Panics msg => Panics msg
    end ∧
  @checkLog tagExternals sampleLog defaultOptions [] =
    Returns (Some [InvalidEventDataReportEntry kernelCmdlineEvent
                     (Some (errorString "short payload"))], None) [] ∧
  @checkEvents tagExternals
     [ (separatorNormal, None);
       (kernelCmdlineEvent, Some (errorString "short payload"));
       (separatorError, None) ] 2 LittleEndian defaultOptions [] [] =
    Returns [InvalidEventDataReportEntry kernelCmdlineEvent
               (Some (errorString "short payload"))] [].
Proof.
  assert (@checkLog tagExternals sampleLog defaultOptions [] =
    Returns (Some [InvalidEventDataReportEntry kernelCmdlineEvent
                     (Some (errorString "short payload"))], None) []) as Hrun
    by (vm_compute; reflexivity).
  destruct (@checkLog_driver tagExternals 2 LittleEndian defaultOptions)
    as (Hend & Hreport & _).
  split; [|split; [exact Hrun|]].
  - exact (Hend [ (separatorNormal, None);
                  (kernelCmdlineEvent, Some (errorString "short payload"));
                  (separatorError, None) ] (Some EOF) [] []).
  - exact (proj2 (proj2 (Hreport
             [ (separatorNormal, None);
               (kernelCmdlineEvent, Some (errorString "short payload"));
               (separatorError, None) ] (Some EOF) [] [] _ _ _ Hrun))).
Defined.

Lemma separatorError_known : knownAlgorithms separatorError.
Proof. apply knownAlgorithms_decide. vm_compute. reflexivity. Defined.

Lemma checkLog_never_panics_witness :
  (∀ event err, (Some event, err) ∈ stream sampleLog → knownAlgorithms event) ∧
  safe (@hash tagExternals (Some [x01]) AlgorithmSha384) ∧
  safe (@isSeparatorEventError tagExternals separatorError LittleEndian) ∧
  safe (@checkEvent tagExternals kernelCmdlineEvent None 2 LittleEndian defaultOptions []) ∧
  safe (@checkLog tagExternals sampleLog defaultOptions).
Proof.
  destruct (@checkLog_never_panics tagExternals) as (Hhash & Hsep & Hevent & Hlog).
  split; [exact sampleLog_known|].
  split; [exact (Hhash _ AlgorithmSha384 eq_refl)|].
  split; [exact (Hsep separatorError LittleEndian eq_refl separatorError_known)|].
  split; [exact (Hevent kernelCmdlineEvent None 2 LittleEndian defaultOptions []
                   kernelCmdlineEvent_known)|].
  exact (Hlog sampleLog defaultOptions sampleLog_known).
Defined.

Lemma singleDigestLog_sizes :
  ∀ event err, (Some event, err) ∈ stream singleDigestLog →
    (size (Digests event) ≤ 1)%nat.
Proof.
  intros event err Hin. simpl in Hin.
  repeat match goal with
         | H : _ ∈ _ :: _ |- _ => apply elem_of_cons in H as [H|H]
         | H : (Some _, _) = (_, _) |- _ => injection H as -> ->
         | H : _ ∈ [] |- _ => by apply not_elem_of_nil in H
         end; try discriminate; vm_compute; lia.
Defined.

Lemma checkLog_deterministic_single_digest_witness :
  (∀ event err, (Some event, err) ∈ stream singleDigestLog →
     (size (Digests event) ≤ 1)%nat) ∧
  valueOf (@checkLog tagExternals singleDigestLog defaultOptions [[AlgorithmSha1]]) =
  valueOf (@checkLog tagExternals singleDigestLog defaultOptions [[AlgorithmSha256]]).
Proof.
  split; [exact singleDigestLog_sizes|].
  exact (proj1 (@checkLog_deterministic_single_digest tagExternals singleDigestLog
                  defaultOptions singleDigestLog_sizes) _ _).
Defined.


Lemma checkEventDigests_empty_witness :
  Digests separatorNoDigests = ∅ ∧
  (∃ rt', @checkEventDigests tagExternals separatorNoDigests LittleEndian defaultOptions
            [] [] = Returns [] rt') ∧
  @isSeparatorEventError tagExternals separatorNoDigests LittleEndian [] =
    Returns false [] ∧
  @checkEventData tagExternals separatorNoDigests LittleEndian [] =
    Returns (separatorPayloadError LittleEndian [xde; xad]) [].
Proof.
  destruct (@checkEventDigests_empty tagExternals separatorNoDigests LittleEndian
              defaultOptions [] [] eq_refl) as [Hnone Hsep].
  split; [reflexivity|]. split; [exact Hnone|]. exact (Hsep eq_refl).
Defined.

(** * Counterexamples *)

(** Against C7: the report for one NoAction event with two digests that are
    not all-zero lists its two entries in the order in which the runtime
    enumerates the digest mapping, and the classification of one Separator
    event, whose SHA-1 digest alone is the hash of the error value, depends
    on which entry the runtime enumerates first. *)
Lemma checkEvent_depends_on_enumeration :
  ¬ (valueOf (@checkEvent tagExternals noActionTwoBad None 2 LittleEndian defaultOptions
                [] [[AlgorithmSha1]]) =
     valueOf (@checkEvent tagExternals noActionTwoBad None 2 LittleEndian defaultOptions
                [] [[AlgorithmSha256]])) ∧
  ¬ (valueOf (@isSeparatorEventError tagExternals separatorMixed LittleEndian
                [[AlgorithmSha1]]) =
     valueOf (@isSeparatorEventError tagExternals separatorMixed LittleEndian
                [[AlgorithmSha256]])).
Proof. split; vm_compute; discriminate. Qed.


(** * The further properties at concrete inputs *)

Lemma isExpectedEventTypeForIndex_older_spec_witness :
  (0 ≤ 1)%N ∧
  @isExpectedEventTypeForIndex tagExternals EventTypeEventTag 3 1 = true ∧
  @isExpectedEventTypeForIndex tagExternals EventTypeEventTag 3 0 = true.
Proof.
  assert (0 ≤ 1)%N as Hle by lia.
  split; [exact Hle|]. split; [reflexivity|].
  exact (@isExpectedEventTypeForIndex_older_spec tagExternals EventTypeEventTag 3 1 0
           Hle eq_refl).
Defined.

Lemma isExpectedEventTypeForIndex_nowhere_witness :
  (EventTypeIPL ∈ legacyEventTypes ∧ (@SpecPCClient tagExternals < 2)%N) ∧
  ∀ i, (i ≤ 7)%N → @isExpectedEventTypeForIndex tagExternals EventTypeIPL i 2 = false.
Proof.
  assert (EventTypeIPL ∈ legacyEventTypes ∧ (@SpecPCClient tagExternals < 2)%N) as H.
  { split; [unfold legacyEventTypes; set_solver|]. simpl. lia. }
  split; [exact H|].
  exact (proj2 (@isExpectedEventTypeForIndex_nowhere tagExternals EventTypeIPL 2) H).
Defined.

Lemma checkEventData_wellFormed_witness :
  EventType_of compactHashShort ≠ EventTypeSeparator ∧
  ∃ err,
    (∀ rt, @checkEventData tagExternals compactHashShort LittleEndian rt = Returns err rt) ∧
    (err = None ↔ payloadWellFormed compactHashShort).
Proof.
  assert (EventType_of compactHashShort ≠ EventTypeSeparator) as Ht by discriminate.
  split; [exact Ht|].
  exact (@checkEventData_wellFormed tagExternals compactHashShort LittleEndian Ht).
Defined.

Lemma determineMeasuredBytes_Separator_witness :
  EventType_of separatorError = EventTypeSeparator ∧
  @determineMeasuredBytes tagExternals separatorError LittleEndian defaultOptions [] =
    Returns (Some (PutUint32 LittleEndian separatorEventErrorValue)) [] ∧
  Some (PutUint32 LittleEndian separatorEventErrorValue) ≠ None ∧
  (Some (PutUint32 LittleEndian separatorEventErrorValue) ∈
     payloadFields (Data separatorError) ∨
   Some (PutUint32 LittleEndian separatorEventErrorValue) =
     Some (PutUint32 LittleEndian separatorEventErrorValue)).
Proof.
  assert (@determineMeasuredBytes tagExternals separatorError LittleEndian defaultOptions [] =
    Returns (Some (PutUint32 LittleEndian separatorEventErrorValue)) []) as Hrun
    by (vm_compute; reflexivity).
  split; [reflexivity|]. split; [exact Hrun|].
  exact (@determineMeasuredBytes_Separator tagExternals separatorError LittleEndian
           defaultOptions [] [] _ eq_refl Hrun).
Defined.

Lemma determineMeasuredBytes_payload_witness :
  EventType_of bootVariableEvent ≠ EventTypeSeparator ∧
  ∃ out,
    (∀ order rt, @determineMeasuredBytes tagExternals bootVariableEvent order
                   defaultOptions rt = Returns out rt) ∧
    (out = None ∨ out ∈ payloadFields (Data bootVariableEvent)).
Proof.
  assert (EventType_of bootVariableEvent ≠ EventTypeSeparator) as Ht by discriminate.
  split; [exact Ht|].
  exact (@determineMeasuredBytes_payload tagExternals bootVariableEvent defaultOptions Ht).
Defined.

Lemma checkEventDigests_no_expectation_witness :
  EventType_of postCodeUnknownAlgorithm ≠ EventTypeNoAction ∧
  @determineMeasuredBytes tagExternals postCodeUnknownAlgorithm LittleEndian
     defaultOptions [] = Returns None [] ∧
  @checkEventDigests tagExternals postCodeUnknownAlgorithm LittleEndian defaultOptions
     [] [] = Returns [] (tl []).
Proof.
  assert (EventType_of postCodeUnknownAlgorithm ≠ EventTypeNoAction) as Ht by discriminate.
  assert (@determineMeasuredBytes tagExternals postCodeUnknownAlgorithm LittleEndian
            defaultOptions [] = Returns None []) as Hmb by reflexivity.
  split; [exact Ht|]. split; [exact Hmb|].
  exact (@checkEventDigests_no_expectation tagExternals postCodeUnknownAlgorithm
           LittleEndian defaultOptions [] [] [] Ht Hmb).
Defined.

Lemma checkEventDigests_unknown_algorithm_witness :
  EventType_of actionUnknownAlgorithm ≠ EventTypeNoAction ∧
  @determineMeasuredBytes tagExternals actionUnknownAlgorithm LittleEndian
     defaultOptions [] =
    Returns (Some (String.list_byte_of_string "Calling INT 19h")) [] ∧
  Digests actionUnknownAlgorithm !! AlgorithmOther 18 = Some (Some [x01]) ∧
  isKnownAlgorithm (AlgorithmOther 18) = false ∧
  @checkEventDigests tagExternals actionUnknownAlgorithm LittleEndian defaultOptions
     [] [] = Panics "Unhandled algorithm".
Proof.
  assert (EventType_of actionUnknownAlgorithm ≠ EventTypeNoAction) as Ht by discriminate.
  assert (@determineMeasuredBytes tagExternals actionUnknownAlgorithm LittleEndian
            defaultOptions [] =
          Returns (Some (String.list_byte_of_string "Calling INT 19h")) []) as Hmb
    by reflexivity.
  assert (Digests actionUnknownAlgorithm !! AlgorithmOther 18 = Some (Some [x01]))
    as Hlk by (vm_compute; reflexivity).
  split; [exact Ht|]. split; [exact Hmb|]. split; [exact Hlk|]. split; [reflexivity|].
  exact (@checkEventDigests_unknown_algorithm tagExternals actionUnknownAlgorithm
           LittleEndian defaultOptions [] [] [] _ _ _ Ht Hmb Hlk eq_refl).
Defined.

Lemma checkLog_panics_witness :
  @checkLog tagExternals unknownAlgorithmLog defaultOptions [] =
    Panics "Unhandled algorithm" ∧
  ∃ event err alg d, (Some event, err) ∈ stream unknownAlgorithmLog ∧
    EventType_of event ≠ EventTypeNoAction ∧
    Digests event !! alg = Some d ∧ isKnownAlgorithm alg = false.
Proof.
  assert (@checkLog tagExternals unknownAlgorithmLog defaultOptions [] =
          Panics "Unhandled algorithm") as Hrun by (vm_compute; reflexivity).
  split; [exact Hrun|].
  exact (proj2 (@checkLog_panics tagExternals unknownAlgorithmLog defaultOptions []
                  _ Hrun)).
Defined.

Lemma checkEventDigests_genuine_witness :
  ∃ r rt',
    @checkEventDigests tagExternals noActionOneBad LittleEndian defaultOptions [] [] =
      Returns r rt' ∧
    ∃ es,
      r = [] ++ es ∧
      (∀ e, e ∈ es → ∃ alg d x,
         e = UnexpectedDigestValueReportEntry noActionOneBad alg (Some x) ∧
         Digests noActionOneBad !! alg = Some d ∧ slice_bytes d ≠ x) ∧
      (∀ alg, (length (entriesAbout alg es) ≤ 1)%nat) ∧
      (length es ≤ size (Digests noActionOneBad))%nat.
Proof.
  destruct (@checkEventDigests tagExternals noActionOneBad LittleEndian defaultOptions
              [] []) as [r rt'|msg] eqn:Hrun; [|by vm_compute in Hrun].
  exists r, rt'. split; [reflexivity|].
  exact (@checkEventDigests_genuine tagExternals noActionOneBad LittleEndian
           defaultOptions [] r [] rt' Hrun).
Defined.

Lemma checkEvent_entries_shape_witness :
  ∃ r rt',
    @checkEvent tagExternals compactHashShort (Some (errorString "short payload")) 2
       LittleEndian defaultOptions [] [] = Returns r rt' ∧
    ∃ es a b c,
      r = [] ++ es ∧
      Forall (λ e, entryEvent e = compactHashShort) es ∧
      entryRank <$> es = replicate a 0%nat ++ replicate b 1%nat ++ replicate c 2%nat ∧
      (a ≤ 1)%nat ∧ (b ≤ 2)%nat ∧
      (Some (errorString "short payload") = None → (b ≤ 1)%nat) ∧
      (c ≤ size (Digests compactHashShort))%nat.
Proof.
  destruct (@checkEvent tagExternals compactHashShort (Some (errorString "short payload"))
              2 LittleEndian defaultOptions [] []) as [r rt'|msg] eqn:Hrun;
    [|by vm_compute in Hrun].
  exists r, rt'. split; [reflexivity|].
  exact (@checkEvent_entries_shape tagExternals compactHashShort _ 2 LittleEndian
           defaultOptions [] r [] rt' Hrun).
Defined.

Lemma checkLog_report_grouped_witness :
  ∃ report err rt',
    @checkLog tagExternals sampleLog defaultOptions [] = Returns (Some report, err) rt' ∧
    ∃ parts,
      report = concat parts ∧
      Forall2 (λ event part, Forall (λ e, entryEvent e = event) part)
        (pulledEvents (stream sampleLog)) parts.
Proof.
  assert (@checkLog tagExternals sampleLog defaultOptions [] =
    Returns (Some [InvalidEventDataReportEntry kernelCmdlineEvent
                     (Some (errorString "short payload"))], None) []) as Hrun
    by (vm_compute; reflexivity).
  eexists _, _, _. split; [exact Hrun|].
  exact (@checkLog_report_grouped tagExternals sampleLog defaultOptions _ _ [] [] Hrun).
Defined.

Lemma checkEvent_sameEntries_witness :
  EventType_of noActionTwoBad ≠ EventTypeSeparator ∧
  sameEntries
    (@checkEvent tagExternals noActionTwoBad None 2 LittleEndian defaultOptions []
       [[AlgorithmSha1]])
    (@checkEvent tagExternals noActionTwoBad None 2 LittleEndian defaultOptions []
       [[AlgorithmSha256]]).
Proof.
  assert (EventType_of noActionTwoBad ≠ EventTypeSeparator) as Ht by discriminate.
  split; [exact Ht|].
  exact (@checkEvent_sameEntries tagExternals noActionTwoBad None 2 LittleEndian
           defaultOptions [] _ _ Ht).
Defined.

Lemma checkEvent_clean_witness :
  (EventType_of kernelCmdlineEvent ≠ EventTypeSeparator ∧
   @determineMeasuredBytes tagExternals kernelCmdlineEvent LittleEndian defaultOptions [] =
     Returns (Some kernelCmdlineText) [] ∧
   knownAlgorithms kernelCmdlineEvent) ∧
  ((∃ rt', @checkEvent tagExternals kernelCmdlineEvent None 2 LittleEndian defaultOptions
             [] [] = Returns [] rt') ↔
   @isExpectedEventTypeForIndex tagExternals (EventType_of kernelCmdlineEvent)
     (PCRIndex_of kernelCmdlineEvent) 2 = true ∧
   (None : option error) = None ∧ payloadWellFormed kernelCmdlineEvent ∧
   ∀ alg d x, Digests kernelCmdlineEvent !! alg = Some d →
     @expectedDigest tagExternals (EventType_of kernelCmdlineEvent)
       (Some kernelCmdlineText) alg = Some x → slice_bytes d = x).
Proof.
  assert (EventType_of kernelCmdlineEvent ≠ EventTypeSeparator) as Ht by discriminate.
  assert (@determineMeasuredBytes tagExternals kernelCmdlineEvent LittleEndian
            defaultOptions [] = Returns (Some kernelCmdlineText) []) as Hmb
    by reflexivity.
  split; [split; [exact Ht|split; [exact Hmb|exact kernelCmdlineEvent_known]]|].
  exact (@checkEvent_clean tagExternals kernelCmdlineEvent None 2 LittleEndian
           defaultOptions [] [] _ Ht Hmb
           (or_intror (or_intror kernelCmdlineEvent_known))).
Defined.

Lemma bootOrderVariableStringer_String_total_witness :
  bootOrderVariableStringer_String [x01; x00; x00; x00; xff; x1a] =
    Some "BootOrder: 0001,0000,1aff" ∧
  bootOrderVariableStringer_String [x01; x00; x00] =
    Some "Invalid BootOrder payload length (3 bytes)" ∧
  ∃ s,
    bootOrderVariableStringer_String [x01; x00; x00] = Some s ∧
    ((length [x01; x00; x00] `mod` 2 ≠ 0)%nat →
     s = "Invalid BootOrder payload length (" +:+ fmt_d (length [x01; x00; x00])
         +:+ " bytes)") ∧
    ((length [x01; x00; x00] `mod` 2 = 0)%nat →
     s = "BootOrder: " +:+ Join (fmt_04x <$> bootNumbers [x01; x00; x00]) "," ∧
     length (bootNumbers [x01; x00; x00]) = (length [x01; x00; x00] / 2)%nat).
Proof.
  split; [reflexivity|]. split; [reflexivity|].
  exact (bootOrderVariableStringer_String_total [x01; x00; x00]).
Defined.

Lemma bootOrderVariableStringer_String_inj_witness :
  (length [x01; x00; xff; x1a] `mod` 2 = 0)%nat ∧
  bootOrderVariableStringer_String [x01; x00; xff; x1a] =
    bootOrderVariableStringer_String ([x01; x00] ++ [xff; x1a]) ∧
  [x01; x00; xff; x1a] = [x01; x00] ++ [xff; x1a].
Proof.
  split; [reflexivity|]. split; [reflexivity|].
  exact (bootOrderVariableStringer_String_inj [x01; x00; xff; x1a]
           ([x01; x00] ++ [xff; x1a]) eq_refl eq_refl).
Defined.

Lemma sampleDatabase_bound : ∀ t, (signaturesOfType t sampleDatabase < 2 ^ 63)%Z.
Proof.
  intros t. unfold sampleDatabase.
  rewrite !signaturesOfType_cons. unfold signaturesOfType, len. simpl.
  repeat case_decide; lia.
Defined.

Lemma dbVariableStringer_String_summary_witness :
  (sampleReadSignatureDatabase [] = inl sampleDatabase ∧
   ∀ t, (signaturesOfType t sampleDatabase < 2 ^ 63)%Z) ∧
  dbVariableStringer_String sampleX509Guid sampleSHA256Guid sampleReadSignatureDatabase
    (λ _, EmptyString) "db" [] false = "db: entries(x509)=3 entries(sha256)=1".
Proof.
  split; [split; [reflexivity|exact sampleDatabase_bound]|].
  rewrite (proj1 (dbVariableStringer_String_summary sampleX509Guid sampleSHA256Guid
                    sampleReadSignatureDatabase (λ _, EmptyString) "db" []
                    sampleDatabase eq_refl sampleDatabase_bound)).
  reflexivity.
Defined.
